(** * Block scan microdemo (scan/warp/testScanBlock.cu)

    Shallow embedding of the CPU reference scans, of the block-scan kernels
    and their host wrappers, and of the harness [TestScanBlock].

    Memory is one flat address space [mem : nat -> Z] (an address is an
    index of an [int] cell); pointers are addresses, so aliasing between
    [out] and [in] is expressible.  [int] arithmetic is 32-bit two's
    complement, written out by [wrap32]. *)

From Stdlib Require Import Arith Lia ZArith List Bool.
From Stdlib Require Import FunctionalExtensionality.
Import ListNotations.

Open Scope nat_scope.

(** ** Machine integers and memory *)

Definition wrap32 (z : Z) : Z :=
  ((z + 2 ^ 31) mod 2 ^ 32 - 2 ^ 31)%Z.

Definition mem := nat -> Z.

Definition upd (m : mem) (a : nat) (v : Z) : mem :=
  fun x => if Nat.eqb x a then v else m x.

(** [zsum f a n] is the mathematical sum [f a + ... + f (a+n-1)]. *)
Fixpoint zsum (f : nat -> Z) (a n : nat) : Z :=
  match n with
  | 0 => 0%Z
  | S n' => (zsum f a n' + f (a + n')%nat)%Z
  end.

(** ** CPU reference scans *)

Inductive ScanType := Inclusive | Exclusive.

(** The [for (size_t i = i0; i < N; i += step)] loop.  The fuel bounds the
    number of iterations; every caller passes a fuel that is at least the
    number of iterations the C loop performs. *)
Fixpoint for_stride (fuel i step N : nat) (body : nat -> mem -> mem) (m : mem)
  : mem :=
  match fuel with
  | 0 => m
  | S f => if i <? N then for_stride f (i + step) step N body (body i m) else m
  end.

(** Inner loop of [ScanExclusiveCPUPeriodic]:
    [int next = in[i+j]; out[i+j] = sum; sum += next;] for [cnt] values of [j]. *)
Fixpoint excl_inner (cnt j : nat) (sum : Z) (out in_ i : nat) (m : mem) : mem :=
  match cnt with
  | 0 => m
  | S c =>
      let next := m (in_ + (i + j)) in
      let m' := upd m (out + (i + j)) sum in
      excl_inner c (S j) (wrap32 (sum + next)) out in_ i m'
  end.

(** Inner loop of [ScanInclusiveCPUPeriodic]:
    [sum += in[i+j]; out[i+j] = sum;]. *)
Fixpoint incl_inner (cnt j : nat) (sum : Z) (out in_ i : nat) (m : mem) : mem :=
  match cnt with
  | 0 => m
  | S c =>
      let sum' := wrap32 (sum + m (in_ + (i + j))) in
      let m' := upd m (out + (i + j)) sum' in
      incl_inner c (S j) sum' out in_ i m'
  end.

Definition ScanExclusiveCPUPeriodic (period out in_ N : nat) (m : mem) : mem :=
  for_stride N 0 period N
    (fun i m => excl_inner period 0 0%Z out in_ i m) m.

Definition ScanInclusiveCPUPeriodic (period out in_ N : nat) (m : mem) : mem :=
  for_stride N 0 period N
    (fun i m => incl_inner period 0 0%Z out in_ i m) m.

Definition ScanCPUPeriodic (st : ScanType) (period out in_ N : nat) (m : mem)
  : mem :=
  match st with
  | Exclusive => ScanExclusiveCPUPeriodic period out in_ N m
  | Inclusive => ScanInclusiveCPUPeriodic period out in_ N m
  end.

(** [ScanCPUBlock]: a switch on [numThreads] with cases 256, 512 and 1024
    (each case returns, for both scan types); [default: return;] leaves the
    memory untouched. *)
Definition ScanCPUBlock (st : ScanType) (out in_ N numThreads : nat) (m : mem)
  : mem :=
  if numThreads =? 256 then ScanCPUPeriodic st 256 out in_ N m
  else if numThreads =? 512 then ScanCPUPeriodic st 512 out in_ N m
  else if numThreads =? 1024 then ScanCPUPeriodic st 1024 out in_ N m
  else m.


(** A small memory for examples: [in] at address 0, [out] at address 100. *)
Definition ex_mem : mem := fun a => if a <? 100 then Z.of_nat a else 0%Z.

Example ex_incl :
  map (ScanInclusiveCPUPeriodic 4 100 0 8 ex_mem) (seq 100 8)
  = [0; 1; 3; 6; 4; 9; 15; 22]%Z.
Proof. reflexivity. Qed.

Example ex_excl :
  map (ScanExclusiveCPUPeriodic 4 100 0 8 ex_mem) (seq 100 8)
  = [0; 0; 1; 3; 0; 4; 9; 15]%Z.
Proof. reflexivity. Qed.

Example ex_excl_inplace :
  map (ScanExclusiveCPUPeriodic 4 0 0 8 ex_mem) (seq 0 8)
  = [0; 0; 1; 3; 0; 4; 9; 15]%Z.
Proof. reflexivity. Qed.

(** The segmented scan the CPU reference is meant to compute: the scan of
    [x] restarted at every multiple of [period]. *)
Definition seg_scan (st : ScanType) (period : nat) (x : nat -> Z) (p : nat) : Z :=
  match st with
  | Inclusive => wrap32 (zsum x (p / period * period) (S (p mod period)))
  | Exclusive => wrap32 (zsum x (p / period * period) (p mod period))
  end.

(** The scan of one block's values [x] at lane [t]. *)
Definition scan_ref (st : ScanType) (x : nat -> Z) (t : nat) : Z :=
  match st with
  | Inclusive => wrap32 (zsum x 0 (S t))
  | Exclusive => wrap32 (zsum x 0 t)
  end.

(** ** Warp and block scans *)

(** Modelled from the spec: [scanWarp<T,false>] of scanWarp.cuh, which is not
    among the sources.  Section 4.1: a Hillis-Steele scan over the 32 lanes of
    a warp; at the step of offset [2^k] the lane [tid mod 32] adds the shared
    slot [tid - 2^k] when that lane exists (bounds-checked variant, no zero
    padding).  The lanes of a warp run in lockstep: a step reads the whole
    buffer before writing it. *)
Definition scanWarp_step (offset : nat) (s : nat -> Z) : nat -> Z :=
  fun tid =>
    if offset <=? tid mod 32 then wrap32 (s tid + s (tid - offset)) else s tid.

Fixpoint scanWarp_steps (k : nat) (s : nat -> Z) : nat -> Z :=
  match k with
  | 0 => s
  | S k' => scanWarp_step (2 ^ k') (scanWarp_steps k' s)
  end.

Definition scanWarp (sPartials : nat -> Z) : nat -> Z := scanWarp_steps 5 sPartials.

(** Modelled from the spec: [scanBlock<T,false>] of scanBlock.cuh, which is
    not among the sources.  Section 4.2: each warp scans its slots; the last
    lane of every warp publishes the warp total; the first warp scans the
    totals; every lane of warp [w > 0] adds the scanned total of warp
    [w - 1] (its carry-in).  Each lane writes its result back to its own slot,
    so after the call the first [B] slots hold the block's inclusive scan
    (the slot the exclusive branch of [ScanGPUBlock] reads). Returns the
    per-lane results and the shared buffer. *)
Definition scanBlock (B : nat) (sPartials : nat -> Z) : (nat -> Z) * (nat -> Z) :=
  let sum := scanWarp sPartials in
  let warpPartials := fun warpid => sum (warpid * 32 + 31) in
  let warpScan := scanWarp warpPartials in
  let result := fun tid =>
    if 0 <? tid / 32 then wrap32 (sum tid + warpScan (tid / 32 - 1)) else sum tid in
  (result, fun tid => if tid <? B then result tid else sPartials tid).

(** Modelled from the spec: [__shfl_up] as used by [inclusive_scan_warp_shfl]
    of scanWarpShuffle.cuh (not among the sources): lane [l] receives the
    register of lane [l - delta] of its warp, its own register when
    [l < delta]. *)
Definition shfl_up (v : nat -> Z) (delta : nat) : nat -> Z :=
  fun tid => if delta <=? tid mod 32 then v (tid - delta) else v tid.

(** Modelled from the spec: [inclusive_scan_warp_shfl<logWidth>]
    (Section 4.1, shuffle strategy): [logWidth] register-exchange steps with
    offsets [1, 2, 4, ...], each lane adding the received value when it has
    a lane at that offset below it. *)
Fixpoint inclusive_scan_warp_shfl (logWidth : nat) (v : nat -> Z) : nat -> Z :=
  match logWidth with
  | 0 => v
  | S k =>
      let sum := inclusive_scan_warp_shfl k v in
      fun tid =>
        let t := shfl_up sum (2 ^ k) tid in
        if 2 ^ k <=? tid mod 32 then wrap32 (sum tid + t) else sum tid
  end.

(** Modelled from the spec: [inclusive_scan_block<logBlockSize>] (not among
    the sources): shuffle scans inside each warp, a shuffle scan of the
    [2^(logBlockSize-5)] warp totals, then the carry-in. *)
Definition inclusive_scan_block (logBlockSize : nat) (v : nat -> Z) : nat -> Z :=
  let sum := inclusive_scan_warp_shfl 5 v in
  let warpPartials := fun warpid => sum (warpid * 32 + 31) in
  let warpScan := inclusive_scan_warp_shfl (logBlockSize - 5) warpPartials in
  fun tid =>
    if 0 <? tid / 32 then wrap32 (sum tid + warpScan (tid / 32 - 1)) else sum tid.

(** Modelled from the spec: [exclusive_scan_block<logBlockSize>] (not among
    the sources): as [inclusive_scan_block], but each lane converts its own
    warp-inclusive value to exclusive (subtracting its input) before adding
    the carry-in. *)
Definition exclusive_scan_block (logBlockSize : nat) (v : nat -> Z) : nat -> Z :=
  let sum := inclusive_scan_warp_shfl 5 v in
  let warpPartials := fun warpid => sum (warpid * 32 + 31) in
  let warpScan := inclusive_scan_warp_shfl (logBlockSize - 5) warpPartials in
  fun tid =>
    let excl := wrap32 (sum tid - v tid) in
    if 0 <? tid / 32 then wrap32 (excl + warpScan (tid / 32 - 1)) else excl.

(** The spec's other derivation of the exclusive block scan (Section 4.2),
    to compare with the exclusive branch of [ScanGPUBlock]: each lane
    converts its own warp-inclusive value to exclusive before adding the
    carry-in of its warp. *)
Definition exclusive_by_conversion (x : nat -> Z) : nat -> Z :=
  let sum := scanWarp x in
  let warpPartials := fun warpid => sum (warpid * 32 + 31) in
  let warpScan := scanWarp warpPartials in
  fun tid =>
    let excl := wrap32 (sum tid - x tid) in
    if 0 <? tid / 32 then wrap32 (excl + warpScan (tid / 32 - 1)) else excl.

(** ** Kernels and host wrappers *)

(** The values [in[i+tid]] a block loads for the segment starting at [i]. *)
Definition segment (in_ i : nat) (m : mem) : nat -> Z :=
  fun tid => m (in_ + (i + tid)).

(** The [blockDim] threads of a block write [out[i+tid] = v tid]; all of
    them have computed their value from the memory before the writes. *)
Fixpoint write_lanes (n : nat) (addr : nat -> nat) (v : nat -> Z) (m : mem)
  : mem :=
  match n with
  | 0 => m
  | S n' => upd (write_lanes n' addr v m) (addr n') (v n')
  end.

(** A grid-stride kernel of the file: block [blockIdx] runs
    [for (i = blockIdx*blockDim; i < N; i += blockDim)] and writes the value
    [thread (in[i..]) tid] of each thread [tid] to [out[i+tid]].  The blocks
    are run one after the other, in index order; they write the same value
    to every output cell they share, so the order does not matter. *)
Definition block_body (thread : (nat -> Z) -> nat -> Z) (out in_ blockDim : nat)
  (i : nat) (m : mem) : mem :=
  write_lanes blockDim (fun tid => out + (i + tid)) (thread (segment in_ i m)) m.

Fixpoint run_blocks (thread : (nat -> Z) -> nat -> Z) (out in_ N blockDim : nat)
  (gridDim : nat) (m : mem) : mem :=
  match gridDim with
  | 0 => m
  | S b =>
      for_stride N (b * blockDim) blockDim N
        (block_body thread out in_ blockDim)
        (run_blocks thread out in_ N blockDim b m)
  end.

(** Kernel [ScanGPUBlock<scantype>]: load the slot, [scanBlock], and for the
    exclusive scan read the preceding slot after the barrier
    ([(tid) ? sPartials[tid-1] : 0]). *)
Definition ScanGPUBlock_thread (st : ScanType) (blockDim : nat) (x : nat -> Z)
  (tid : nat) : Z :=
  let (myValue, sPartials) := scanBlock blockDim x in
  match st with
  | Inclusive => myValue tid
  | Exclusive => if tid =? 0 then 0%Z else sPartials (tid - 1)
  end.

(** Kernel [ScanGPUBlockShuffle<scantype, logBlockSize>]. *)
Definition ScanGPUBlockShuffle_thread (st : ScanType) (logBlockSize : nat)
  (x : nat -> Z) (tid : nat) : Z :=
  match st with
  | Exclusive => exclusive_scan_block logBlockSize x tid
  | Inclusive => inclusive_scan_block logBlockSize x tid
  end.

(** [int cBlocks = (int)(N/150); if (cBlocks > 150) cBlocks = 150;]
    (the narrowing cast only matters for [N] beyond [150 * 2^31]). *)
Definition grid_blocks (N : nat) : nat :=
  let cBlocks := N / 150 in
  if 150 <? cBlocks then 150 else cBlocks.

(** Host wrapper [ScanGPUBlock<scantype>(out, in, N, cThreads)], with each
    pass of a block taken as one step: the schedule in which every pass of
    a block completes before its next pass starts.  The exclusive kernel
    has a race between the read of [sPartials[tid-1]] after the second
    barrier and the store of the next pass by a warp that runs ahead
    ([ScanGPUBlock_outcome] below has all interleavings); the results
    stated about this function are for the inclusive scan or for a single
    pass per block ([N <= cThreads]), where that race cannot occur, and
    for at most 1024 threads per block, which the launch accepts. *)
Definition ScanGPUBlock (st : ScanType) (out in_ N cThreads : nat) (m : mem)
  : mem :=
  run_blocks (ScanGPUBlock_thread st cThreads) out in_ N cThreads
    (grid_blocks N) m.

(** Host wrapper [ScanGPUBlockShuffle<scantype>(out, in, N, cThreads)]: the
    switch returns after launching the shuffle kernel for 128, 256, 512 and
    1024 threads and falls through to the [ScanGPUBlock] kernel otherwise. *)
Definition ScanGPUBlockShuffle (st : ScanType) (out in_ N cThreads : nat)
  (m : mem) : mem :=
  let cBlocks := grid_blocks N in
  match cThreads with
  | 128 => run_blocks (ScanGPUBlockShuffle_thread st 7) out in_ N 128 cBlocks m
  | 256 => run_blocks (ScanGPUBlockShuffle_thread st 8) out in_ N 256 cBlocks m
  | 512 => run_blocks (ScanGPUBlockShuffle_thread st 9) out in_ N 512 cBlocks m
  | 1024 =>
      run_blocks (ScanGPUBlockShuffle_thread st 10) out in_ N 1024 cBlocks m
  | _ => run_blocks (ScanGPUBlock_thread st cThreads) out in_ N cThreads cBlocks m
  end.

(** Modelled from the spec (Section 4.1: the exclusive scan is the
    inclusive one minus the lane's own value): [scanWarpExclusive<T,false>]
    of scanWarp.cuh, not among the sources. *)
Definition scanWarpExclusive (sPartials : nat -> Z) : nat -> Z :=
  fun tid => wrap32 (scanWarp sPartials tid - sPartials tid).

(** Modelled from the spec, as [scanWarpExclusive]:
    [exclusive_scan_warp_shfl<logWidth>] of scanWarpShuffle.cuh. *)
Definition exclusive_scan_warp_shfl (logWidth : nat) (v : nat -> Z) : nat -> Z :=
  fun tid => wrap32 (inclusive_scan_warp_shfl logWidth v tid - v tid).

(** Kernel [ScanGPUWarp<scantype>]: load the slot, then the warp scan of the
    slots ([scanWarp] or [scanWarpExclusive]). *)
Definition ScanGPUWarp_thread (st : ScanType) (x : nat -> Z) (tid : nat) : Z :=
  match st with
  | Inclusive => scanWarp x tid
  | Exclusive => scanWarpExclusive x tid
  end.

(** Host wrapper [ScanGPU<scantype>(out, in, N, cThreads)]. *)
Definition ScanGPU (st : ScanType) (out in_ N cThreads : nat) (m : mem) : mem :=
  run_blocks (ScanGPUWarp_thread st) out in_ N cThreads (grid_blocks N) m.

(** Kernel [ScanGPUWarpShuffle<scantype>]: the shuffle warp scan with
    [logWidth = 5] of the register [in[i+threadIdx.x]]. *)
Definition ScanGPUWarpShuffle_thread (st : ScanType) (x : nat -> Z) (tid : nat)
  : Z :=
  match st with
  | Inclusive => inclusive_scan_warp_shfl 5 x tid
  | Exclusive => exclusive_scan_warp_shfl 5 x tid
  end.

(** Host wrapper [ScanGPUShuffle<scantype>(out, in, N, cThreads)]. *)
Definition ScanGPUShuffle (st : ScanType) (out in_ N cThreads : nat) (m : mem)
  : mem :=
  run_blocks (ScanGPUWarpShuffle_thread st) out in_ N cThreads (grid_blocks N) m.

(** [N] rounded up to a multiple of [period]: the extent of the cells a
    loop [for (i = 0; i < N; i += period)] over whole periods touches. *)
Definition roundup (N period : nat) : nat := (N + period - 1) / period * period.

(** ** The kernel [ScanGPUBlock] as concurrent warps *)

(** Program points of a warp of the kernel [ScanGPUBlock<scantype>]: the
    loop test (followed, when [i < N], by the store [sPartials[tid] =
    in[i+tid]]), the barrier before [scanBlock], the barrier of the
    exclusive branch, the read [(tid) ? sPartials[tid-1] : 0], the store
    [out[i+threadIdx.x] = myValue], and the exit of the loop. *)
Inductive Pc := LoopTest (i : nat) | AtSync1 (i : nat) | AtSync2 (i : nat)
  | ReadPrev (i : nat) | StoreOut (i : nat) | Exited.

Definition Pc_eqb (p q : Pc) : bool :=
  match p, q with
  | LoopTest i, LoopTest j | AtSync1 i, AtSync1 j | AtSync2 i, AtSync2 j
  | ReadPrev i, ReadPrev j | StoreOut i, StoreOut j => i =? j
  | Exited, Exited => true
  | _, _ => false
  end.

(** A block: the program point of each warp, the register [myValue] of each
    thread and the dynamic shared array [sPartials] of [blockDim] ints. *)
Record BlockState := {
  bs_pc : nat -> Pc; bs_myValue : list Z; bs_sPartials : list Z
}.

Definition nwarps (blockDim : nat) : nat := (blockDim + 31) / 32.

(** Lane [tid] belongs to warp [tid / 32]; the lanes of a warp run in
    lockstep, so a warp step updates all its lanes at once. *)
Definition set_lanes (blockDim w : nat) (f : nat -> Z) (l : list Z) : list Z :=
  map (fun tid => if tid / 32 =? w then f tid else nth tid l 0%Z)
    (seq 0 blockDim).

Definition warp_lanes (blockDim w : nat) : list nat :=
  filter (fun tid => tid <? blockDim) (seq (w * 32) 32).

Definition set_pc (pcs : nat -> Pc) (w : nat) (p : Pc) : nat -> Pc :=
  fun w' => if w' =? w then p else pcs w'.

(** One step of warp [w] up to its next barrier or shared access. *)
Definition warp_step (st : ScanType) (out in_ N blockDim w : nat)
  (bs : BlockState) (m : mem) : option (BlockState * mem) :=
  match bs_pc bs w with
  | LoopTest i =>
      if i <? N then
        Some ({| bs_pc := set_pc (bs_pc bs) w (AtSync1 i);
                 bs_myValue := bs_myValue bs;
                 bs_sPartials := set_lanes blockDim w
                   (fun tid => m (in_ + (i + tid))) (bs_sPartials bs) |}, m)
      else
        Some ({| bs_pc := set_pc (bs_pc bs) w Exited;
                 bs_myValue := bs_myValue bs;
                 bs_sPartials := bs_sPartials bs |}, m)
  | ReadPrev i =>
      Some ({| bs_pc := set_pc (bs_pc bs) w (StoreOut i);
               bs_myValue := set_lanes blockDim w
                 (fun tid => if tid =? 0 then 0%Z
                             else nth (tid - 1) (bs_sPartials bs) 0%Z)
                 (bs_myValue bs);
               bs_sPartials := bs_sPartials bs |}, m)
  | StoreOut i =>
      Some ({| bs_pc := set_pc (bs_pc bs) w (LoopTest (i + blockDim));
               bs_myValue := bs_myValue bs;
               bs_sPartials := bs_sPartials bs |},
            fold_left (fun m tid =>
                         upd m (out + (i + tid)) (nth tid (bs_myValue bs) 0%Z))
              (warp_lanes blockDim w) m)
  | _ => None
  end.

Definition all_at (blockDim : nat) (bs : BlockState) (p : Pc) : bool :=
  forallb (fun w => Pc_eqb (bs_pc bs w) p) (seq 0 (nwarps blockDim)).

(** [__syncthreads()]: once every warp of the block has reached it.  The
    barrier before [scanBlock] is followed by the block scan as a whole
    (a block-wide step, with its own barriers); the inclusive kernel then
    goes on to its store, the exclusive one to the second barrier. *)
Definition sync_step (st : ScanType) (blockDim : nat) (bs : BlockState)
  : option BlockState :=
  match bs_pc bs 0 with
  | AtSync1 i =>
      if all_at blockDim bs (AtSync1 i) then
        let (res, sh) := scanBlock blockDim
                           (fun tid => nth tid (bs_sPartials bs) 0%Z) in
        Some {| bs_pc := fun _ => match st with
                                  | Inclusive => StoreOut i
                                  | Exclusive => AtSync2 i
                                  end;
                bs_myValue := map res (seq 0 blockDim);
                bs_sPartials := map sh (seq 0 blockDim) |}
      else None
  | AtSync2 i =>
      if all_at blockDim bs (AtSync2 i) then
        Some {| bs_pc := fun _ => ReadPrev i; bs_myValue := bs_myValue bs;
                bs_sPartials := bs_sPartials bs |}
      else None
  | _ => None
  end.

(** The grid: the state of each block and the global memory. *)
Record GridState := { gs_blocks : nat -> BlockState; gs_mem : mem }.

(** A scheduling decision: a step of warp [w] of block [b], or the release
    of a barrier of block [b]. *)
Inductive Sched := WarpStep (b w : nat) | Barrier (b : nat).

Definition set_block (bl : nat -> BlockState) (b : nat) (bs : BlockState)
  : nat -> BlockState :=
  fun b' => if b' =? b then bs else bl b'.

Definition grid_step (st : ScanType) (out in_ N blockDim gridDim : nat)
  (s : Sched) (gs : GridState) : option GridState :=
  match s with
  | WarpStep b w =>
      if (b <? gridDim) && (w <? nwarps blockDim) then
        match warp_step st out in_ N blockDim w (gs_blocks gs b) (gs_mem gs) with
        | Some (bs, m) => Some {| gs_blocks := set_block (gs_blocks gs) b bs;
                                  gs_mem := m |}
        | None => None
        end
      else None
  | Barrier b =>
      if b <? gridDim then
        match sync_step st blockDim (gs_blocks gs b) with
        | Some bs => Some {| gs_blocks := set_block (gs_blocks gs) b bs;
                             gs_mem := gs_mem gs |}
        | None => None
        end
      else None
  end.

Fixpoint grid_run (st : ScanType) (out in_ N blockDim gridDim : nat)
  (sched : list Sched) (gs : GridState) : option GridState :=
  match sched with
  | [] => Some gs
  | s :: rest =>
      match grid_step st out in_ N blockDim gridDim s gs with
      | Some gs' => grid_run st out in_ N blockDim gridDim rest gs'
      | None => None
      end
  end.

(** The launch: block [b] starts its loop at [i = b * blockDim]; the
    shared array starts with unspecified contents [sh0]. *)
Definition grid_init (blockDim : nat) (sh0 : list Z) (m : mem) : GridState :=
  {| gs_blocks := fun b => {| bs_pc := fun _ => LoopTest (b * blockDim);
                              bs_myValue := repeat 0%Z blockDim;
                              bs_sPartials := sh0 |};
     gs_mem := m |}.

Definition grid_done (blockDim gridDim : nat) (gs : GridState) : bool :=
  forallb (fun b => all_at blockDim (gs_blocks gs b) Exited) (seq 0 gridDim).

(** The memories a complete run of the launch
    [ScanGPUBlock<scantype><<<cBlocks, cThreads, ...>>>] can leave, under any
    interleaving of the warps; a launch with more than 1024 (or no)
    threads per block fails and writes nothing. *)
Definition ScanGPUBlock_outcome (st : ScanType) (out in_ N cThreads : nat)
  (m m' : mem) : Prop :=
  if (0 <? cThreads) && (cThreads <=? 1024) then
    exists sh0 sched gs,
      grid_run st out in_ N cThreads (grid_blocks N) sched
        (grid_init cThreads sh0 m) = Some gs
      /\ grid_done cThreads (grid_blocks N) gs = true /\ gs_mem gs = m'
  else m' = m.

(** Schedules of the launch [<<<1, 128>>>] on 256 elements: four warps,
    two passes. *)
Definition warps4 (b : nat) : list Sched := map (WarpStep b) [0; 1; 2; 3].

(** Each pass completes before the next begins. *)
Definition sched_passes : list Sched :=
  warps4 0 ++ [Barrier 0; Barrier 0] ++ warps4 0 ++ warps4 0
  ++ warps4 0 ++ [Barrier 0; Barrier 0] ++ warps4 0 ++ warps4 0 ++ warps4 0.

(** Warp 0 runs ahead into the next pass and stores its inputs before
    warp 1 reads [sPartials[31]]. *)
Definition sched_race : list Sched :=
  warps4 0 ++ [Barrier 0; Barrier 0]
  ++ flat_map (fun w => [WarpStep 0 w; WarpStep 0 w; WarpStep 0 w]) [0; 1; 2; 3]
  ++ [Barrier 0; Barrier 0] ++ warps4 0 ++ warps4 0 ++ warps4 0.

(** ** Examples *)

Definition ones : nat -> Z := fun _ => 1%Z.

(** A device memory for examples: ones below address 1000 (the input
    buffer at 0), zeros from 1000 on (the output buffer). *)
Definition dev_mem : mem := fun a => if a <? 1000 then 1%Z else 0%Z.

Example ex_scanBlock : map (fst (scanBlock 64 ones)) [0; 31; 32; 40; 63]
  = [1; 32; 33; 41; 64]%Z.
Proof. vm_compute. reflexivity. Qed.

Example ex_shfl_block :
  map (exclusive_scan_block 7 ones) [0; 31; 32; 100; 127]
  = [0; 31; 32; 100; 127]%Z.
Proof. vm_compute. reflexivity. Qed.

Example ex_scanGPUBlock_excl :
  map (ScanGPUBlock_thread Exclusive 64 ones) [0; 1; 33; 63]
  = [0; 1; 33; 63]%Z.
Proof. vm_compute. reflexivity. Qed.

(** ** The test harness [TestScanBlock] *)

Section Harness.
(** The C library generator behind [rand()]: a state and a step. *)
Variable RandState : Type.
Variable rand : RandState -> Z * RandState.

(** [RandomArray(out, N, modulus)]: [out[i] = rand() % modulus]. *)
Fixpoint RandomArray_loop (cnt i out : nat) (modulus : Z) (m : mem)
  (g : RandState) : mem * RandState :=
  match cnt with
  | 0 => (m, g)
  | S c =>
      let (r, g') := rand g in
      RandomArray_loop c (S i) out modulus (upd m (out + i) (Z.rem r modulus)) g'
  end.

Definition RandomArray (out N : nat) (modulus : Z) (m : mem) (g : RandState)
  : mem * RandState :=
  RandomArray_loop N 0 out modulus m g.

(** [for (int i = 0; i < N; i++) inCPU[i] = i;] *)
Fixpoint iota_loop (cnt i out : nat) (m : mem) : mem :=
  match cnt with
  | 0 => m
  | S c => iota_loop c (S i) out (upd m (out + i) (wrap32 (Z.of_nat i)))
  end.

(** [cudaMemset(p, 0, N*sizeof(int))] and [cudaMemcpy(dst, src, N*sizeof(int))]
    on the flat memory. *)
Fixpoint memset0 (cnt i dst : nat) (m : mem) : mem :=
  match cnt with
  | 0 => m
  | S c => memset0 c (S i) dst (upd m (dst + i) 0%Z)
  end.

Fixpoint memcpy_ints (cnt i dst src : nat) (m : mem) : mem :=
  match cnt with
  | 0 => m
  | S c => memcpy_ints c (S i) dst src (upd m (dst + i) (m (src + i)))
  end.

(** The comparison loop: [false] at the first [hostGPU[i] != outCPU[i]]. *)
Fixpoint compare_ints (cnt i a b : nat) (m : mem) : bool :=
  match cnt with
  | 0 => true
  | S c => if Z.eqb (m (a + i)) (m (b + i)) then compare_ints c (S i) a b m
           else false
  end.

(** The five buffers of a run (results of [malloc] and [cudaMalloc]). *)
Record Buffers := {
  inCPU : nat; outCPU : nat; hostGPU : nat; inGPU : nat; outGPU : nat
}.

(** Memory when [pfnScanCPU] is called: device buffers cleared, the random
    array generated into [inCPU] and then overwritten. *)
Definition TestScanBlock_setup (bufs : Buffers) (N : nat) (m : mem)
  (g : RandState) : mem :=
  let m := memset0 N 0 (inGPU bufs) m in
  let m := memset0 N 0 (outGPU bufs) m in
  let m := memset0 N 0 (outGPU bufs) m in
  let (m, _) := RandomArray (inCPU bufs) N 256 m g in
  iota_loop N 0 (inCPU bufs) m.

(** [TestScanBlock]: the pass/fail result and the final memory.  [allocOK]
    is the outcome of the three [malloc] calls; the CUDA calls are taken to
    succeed, and the timing output is left out. *)
Definition TestScanBlock
  (pfnScanCPU pfnScanGPU : nat -> nat -> nat -> nat -> mem -> mem)
  (bufs : Buffers) (allocOK : bool) (N numThreads : nat) (m : mem)
  (g : RandState) : bool * mem :=
  if negb allocOK then (false, m) else
  let m := TestScanBlock_setup bufs N m g in
  let m := pfnScanCPU (outCPU bufs) (inCPU bufs) N numThreads m in
  let m := memcpy_ints N 0 (inGPU bufs) (inCPU bufs) m in
  let m := pfnScanGPU (outGPU bufs) (inGPU bufs) N numThreads m in
  let m := memcpy_ints N 0 (hostGPU bufs) (outGPU bufs) m in
  (compare_ints N 0 (hostGPU bufs) (outCPU bufs) m, m).

(** [CUDART_CHECK(call)]: [ok k] is the status of the [k]-th checked CUDA
    call of the function (in program order); on a failure [goto Error]
    and return [false].  A failed call is taken to change nothing. *)
Definition cudart_check (ok : nat -> bool) (k : nat) (m : mem)
  (rest : mem -> bool * mem) : bool * mem :=
  if ok k then rest m else (false, m).

(** [TestScanBlock] with its error paths: the three [malloc] calls
    ([allocOK]) and the twelve [CUDART_CHECK]ed CUDA calls.  A mismatch of
    the results is [goto Error] (after [assert(0)], which only a build
    with [NDEBUG] gets past); the output and the timing are left out. *)
Definition TestScanBlock_checked (ok : nat -> bool)
  (pfnScanCPU pfnScanGPU : nat -> nat -> nat -> nat -> mem -> mem)
  (bufs : Buffers) (allocOK : bool) (N numThreads : nat) (m : mem)
  (g : RandState) : bool * mem :=
  if negb allocOK then (false, m) else
  cudart_check ok 0 m (fun m =>           (* cudaEventCreate(&evStart) *)
  cudart_check ok 1 m (fun m =>           (* cudaEventCreate(&evStop) *)
  cudart_check ok 2 m (fun m =>           (* cudaMalloc(&inGPU, ...) *)
  cudart_check ok 3 m (fun m =>           (* cudaMalloc(&outGPU, ...) *)
  cudart_check ok 4 m (fun m =>
  let m := memset0 N 0 (inGPU bufs) m in
  cudart_check ok 5 m (fun m =>
  let m := memset0 N 0 (outGPU bufs) m in
  cudart_check ok 6 m (fun m =>
  let m := memset0 N 0 (outGPU bufs) m in
  let (m, _) := RandomArray (inCPU bufs) N 256 m g in
  let m := iota_loop N 0 (inCPU bufs) m in
  let m := pfnScanCPU (outCPU bufs) (inCPU bufs) N numThreads m in
  cudart_check ok 7 m (fun m =>
  let m := memcpy_ints N 0 (inGPU bufs) (inCPU bufs) m in
  cudart_check ok 8 m (fun m =>           (* cudaEventRecord(evStart, 0) *)
  let m := pfnScanGPU (outGPU bufs) (inGPU bufs) N numThreads m in
  cudart_check ok 9 m (fun m =>           (* cudaEventRecord(evStop, 0) *)
  cudart_check ok 10 m (fun m =>
  let m := memcpy_ints N 0 (hostGPU bufs) (outGPU bufs) m in
  if compare_ints N 0 (hostGPU bufs) (outCPU bufs) m then
    cudart_check ok 11 m (fun m => (true, m))   (* cudaEventElapsedTime *)
  else (false, m)))))))))))).

End Harness.

(** ** The test driver [main] *)

Section Main.
Variable RandState : Type.
Variable rand : RandState -> Z * RandState.
(** The generator state [srand(0)] sets. *)
Variable seed0 : RandState.

(** [for (int numThreads = 256; numThreads <= maxThreads; numThreads *= 2)];
    [None] is the [exit(1)] of a failed test vector.  The fuel bounds the
    iterations (the caller passes [maxThreads], more than enough). *)
Fixpoint thread_loop (fuel numThreads maxThreads : nat)
  (body : nat -> mem -> option mem) (m : mem) : option mem :=
  match fuel with
  | 0 => Some m
  | S f =>
      if numThreads <=? maxThreads then
        match body numThreads m with
        | Some m' => thread_loop f (numThreads * 2) maxThreads body m'
        | None => None
        end
      else Some m
  end.

(** Two statements in sequence, the second skipped after an [exit(1)]. *)
Definition option_bind {A B : Type} (o : option A) (f : A -> option B) : option B :=
  match o with
  | Some a => f a
  | None => None
  end.

(** [SCAN_TEST_VECTOR(CPUFunction, GPUFunction, N, numThreads)]:
    [srand(0)], then [TestScanBlock]; [exit(1)] ([None]) when it fails.
    [ok] and [allocOK] are the outcomes of the run's checked CUDA calls and
    of its three [malloc] calls. *)
Definition SCAN_TEST_VECTOR (ok : nat -> bool) (allocOK : bool)
  (pfnScanCPU pfnScanGPU : nat -> nat -> nat -> nat -> mem -> mem)
  (bufs : Buffers) (N numThreads : nat) (m : mem) : option mem :=
  let (bSuccess, m') := TestScanBlock_checked RandState rand ok pfnScanCPU
                          pfnScanGPU bufs allocOK N numThreads m seed0 in
  if bSuccess then Some m' else None.

(** [int numInts = 32*1048576;] *)
Definition numInts : nat := 32 * (1024 * 1024).

(** [main]: the exit status.  [devOK 0] and [devOK 1] are the outcomes of
    [cudaSetDevice(0)] and [cudaSetDeviceFlags(cudaDeviceMapHost)] (a
    failure is [goto Error; return 1]); [maxThreads] is
    [prop.maxThreadsPerBlock].  [alloc k numThreads], [allocOK k numThreads]
    and [cudaOK k numThreads] are the buffers, the [malloc] outcome and the
    CUDA call outcomes of the [k]-th test vector of the loop bodies at
    [numThreads] (0: the exclusive shuffle vector, 1 and 2: the inclusive
    block and shuffle vectors). *)
Definition main (devOK : nat -> bool) (maxThreads : nat)
  (alloc : nat -> nat -> Buffers) (allocOK : nat -> nat -> bool)
  (cudaOK : nat -> nat -> nat -> bool) (m : mem) : nat :=
  if negb (devOK 0) then 1 else
  if negb (devOK 1) then 1 else
  match thread_loop maxThreads 256 maxThreads
          (fun n m => SCAN_TEST_VECTOR (cudaOK 0 n) (allocOK 0 n)
                        (ScanCPUBlock Exclusive) (ScanGPUBlockShuffle Exclusive)
                        (alloc 0 n) numInts n m)
          m with
  | None => 1
  | Some m =>
      match thread_loop maxThreads 256 maxThreads
              (fun n m =>
                 option_bind (SCAN_TEST_VECTOR (cudaOK 1 n) (allocOK 1 n)
                                (ScanCPUBlock Inclusive) (ScanGPUBlock Inclusive)
                                (alloc 1 n) numInts n m)
                   (fun m => SCAN_TEST_VECTOR (cudaOK 2 n) (allocOK 2 n)
                               (ScanCPUBlock Inclusive)
                               (ScanGPUBlockShuffle Inclusive) (alloc 2 n)
                               numInts n m)) m with
      | None => 1
      | Some _ => 0
      end
  end.
End Main.

(** ** Arithmetic facts *)

Lemma M32_pos : (0 < 2 ^ 32)%Z.
Proof. reflexivity. Qed.

Lemma wrap32_mod (z : Z) : (wrap32 z mod 2 ^ 32 = z mod 2 ^ 32)%Z.
Proof.
  unfold wrap32. rewrite Zminus_mod_idemp_l.
  f_equal. lia.
Qed.

Lemma wrap32_eq (a b : Z) :
  (a mod 2 ^ 32 = b mod 2 ^ 32)%Z -> wrap32 a = wrap32 b.
Proof.
  intros H. unfold wrap32. f_equal.
  rewrite <- (Z.add_mod_idemp_l a), <- (Z.add_mod_idemp_l b) by lia.
  now rewrite H.
Qed.

Lemma wrap32_add_l (a b : Z) : wrap32 (wrap32 a + b) = wrap32 (a + b).
Proof.
  apply wrap32_eq.
  rewrite <- Z.add_mod_idemp_l by lia. rewrite wrap32_mod.
  now rewrite Z.add_mod_idemp_l by lia.
Qed.

Lemma wrap32_add_r (a b : Z) : wrap32 (a + wrap32 b) = wrap32 (a + b).
Proof.
  rewrite (Z.add_comm a), (Z.add_comm a). apply wrap32_add_l.
Qed.

Lemma wrap32_idem (a : Z) : wrap32 (wrap32 a) = wrap32 a.
Proof.
  apply wrap32_eq, wrap32_mod.
Qed.

Lemma wrap32_small (z : Z) : (- 2 ^ 31 <= z < 2 ^ 31)%Z -> wrap32 z = z.
Proof.
  intros H. unfold wrap32. rewrite Z.mod_small by lia. lia.
Qed.

Lemma zsum_split (f : nat -> Z) (a n k : nat) :
  zsum f a (n + k) = (zsum f a n + zsum f (a + n) k)%Z.
Proof.
  induction k as [|k IH]; simpl.
  - rewrite Nat.add_0_r. lia.
  - rewrite Nat.add_succ_r. simpl. rewrite IH.
    replace (a + (n + k)) with (a + n + k) by lia. lia.
Qed.

Lemma zsum_S_r (f : nat -> Z) (a n : nat) :
  zsum f a (S n) = (zsum f a n + f (a + n)%nat)%Z.
Proof. reflexivity. Qed.

Lemma zsum_S_l (f : nat -> Z) (a n : nat) :
  zsum f a (S n) = (f a + zsum f (S a) n)%Z.
Proof.
  replace (S n) with (1 + n) by lia. rewrite zsum_split. simpl.
  rewrite Nat.add_0_r, Nat.add_1_r. lia.
Qed.

Lemma zsum_ext (f g : nat -> Z) (a n : nat) :
  (forall q, a <= q < a + n -> f q = g q) -> zsum f a n = zsum g a n.
Proof.
  induction n as [|n IH]; intros H; simpl; [reflexivity|].
  rewrite IH by (intros; apply H; lia). rewrite H by lia. reflexivity.
Qed.

(** The start and offset of a position inside a period. *)
Lemma period_pos (period i p : nat) :
  0 < period -> i mod period = 0 -> i <= p < i + period ->
  p / period * period = i /\ p mod period = p - i.
Proof.
  intros Hp Hi Hr.
  pose proof (Nat.div_mod_eq i period) as Ei. rewrite Hi, Nat.add_0_r in Ei.
  assert (Ep : p = (p - i) + (i / period) * period) by lia.
  assert (Hq : p / period = i / period).
  { rewrite Ep at 1. rewrite Nat.div_add by lia.
    rewrite Nat.div_small by lia. reflexivity. }
  split.
  - rewrite Hq. lia.
  - rewrite Ep at 1. rewrite Nat.Div0.mod_add. apply Nat.mod_small. lia.
Qed.

Lemma period_next (period i N : nat) :
  0 < period -> i mod period = 0 -> N mod period = 0 -> i < N ->
  i + period <= N /\ (i + period) mod period = 0.
Proof.
  intros Hp Hi HN Hlt.
  pose proof (Nat.div_mod_eq i period) as Ei. rewrite Hi, Nat.add_0_r in Ei.
  pose proof (Nat.div_mod_eq N period) as EN. rewrite HN, Nat.add_0_r in EN.
  split.
  - assert (i / period < N / period) by nia. nia.
  - replace (i + period) with (1 * period + i) by lia.
    rewrite Nat.add_comm, Nat.Div0.mod_add. exact Hi.
Qed.

(** ** Loop frame *)

(** A loop whose body at [i] writes only at or above [out + i] writes only
    at or above [out + i0] when it starts at [i0]. *)
Lemma for_stride_frame (out step N : nat) (body : nat -> mem -> mem) :
  (forall i m a, a < out + i -> body i m a = m a) ->
  forall fuel i m a, a < out + i -> for_stride fuel i step N body m a = m a.
Proof.
  intros Hb fuel. induction fuel as [|f IH]; intros i m a Ha; simpl; auto.
  destruct (i <? N); auto.
  rewrite IH by lia. apply Hb; lia.
Qed.

(** ** The CPU inner loops *)

Section CPUScan.
Variables (out in_ : nat) (m0 : mem).

Let f (q : nat) : Z := m0 (in_ + q).

Lemma excl_inner_frame (cnt j i : nat) (sum : Z) (m : mem) (a : nat) :
  (forall k, j <= k < j + cnt -> a <> out + (i + k)) ->
  excl_inner cnt j sum out in_ i m a = m a.
Proof.
  revert j sum m. induction cnt as [|c IH]; intros j sum m H; simpl; auto.
  rewrite IH by (intros; apply H; lia).
  unfold upd. destruct (Nat.eqb_spec a (out + (i + j))); auto.
  exfalso. apply (H j); lia.
Qed.

Lemma incl_inner_frame (cnt j i : nat) (sum : Z) (m : mem) (a : nat) :
  (forall k, j <= k < j + cnt -> a <> out + (i + k)) ->
  incl_inner cnt j sum out in_ i m a = m a.
Proof.
  revert j sum m. induction cnt as [|c IH]; intros j sum m H; simpl; auto.
  rewrite IH by (intros; apply H; lia).
  unfold upd. destruct (Nat.eqb_spec a (out + (i + j))); auto.
  exfalso. apply (H j); lia.
Qed.

Lemma excl_inner_val (cnt j i : nat) (sum : Z) (m : mem) :
  wrap32 sum = sum ->
  (forall k, j <= k < j + cnt -> m (in_ + (i + k)) = f (i + k)) ->
  (forall a b, j <= a < b -> b < j + cnt -> out + (i + a) <> in_ + (i + b)) ->
  forall k, j <= k < j + cnt ->
  excl_inner cnt j sum out in_ i m (out + (i + k))
  = wrap32 (sum + zsum f (i + j) (k - j)).
Proof.
  revert j sum m. induction cnt as [|c IH]; intros j sum m Hs Hr Hw k Hk;
    [lia|]. simpl.
  destruct (Nat.eq_dec k j) as [->|Hne].
  - rewrite excl_inner_frame by (intros; lia).
    unfold upd. rewrite Nat.eqb_refl, Nat.sub_diag. simpl.
    rewrite Z.add_0_r. now symmetry.
  - rewrite IH; [| apply wrap32_idem | | | lia].
    + rewrite wrap32_add_l, Hr by lia.
      replace (k - j) with (S (k - S j)) by lia.
      rewrite zsum_S_l. apply wrap32_eq. f_equal.
      replace (i + S j) with (S (i + j)) by lia. lia.
    + intros k' Hk'. unfold upd.
      destruct (Nat.eqb_spec (in_ + (i + k')) (out + (i + j))) as [E|_].
      * exfalso. apply (Hw j k'); lia.
      * apply Hr; lia.
    + intros a b Ha Hb. apply Hw; lia.
Qed.

Lemma incl_inner_val (cnt j i : nat) (sum : Z) (m : mem) :
  (forall k, j <= k < j + cnt -> m (in_ + (i + k)) = f (i + k)) ->
  (forall a b, j <= a < b -> b < j + cnt -> out + (i + a) <> in_ + (i + b)) ->
  forall k, j <= k < j + cnt ->
  incl_inner cnt j sum out in_ i m (out + (i + k))
  = wrap32 (sum + zsum f (i + j) (S (k - j))).
Proof.
  revert j sum m. induction cnt as [|c IH]; intros j sum m Hr Hw k Hk;
    [lia|]. cbn [incl_inner].
  destruct (Nat.eq_dec k j) as [->|Hne].
  - rewrite incl_inner_frame by (intros; lia).
    unfold upd. rewrite Nat.eqb_refl, Nat.sub_diag. simpl.
    rewrite Hr, Nat.add_0_r by lia. f_equal; lia.
  - rewrite IH; [| | | lia].
    + rewrite wrap32_add_l, Hr by lia.
      replace (S (k - j)) with (S (S (k - S j))) by lia.
      rewrite (zsum_S_l f (i + j)). apply wrap32_eq. f_equal.
      replace (i + S j) with (S (i + j)) by lia. lia.
    + intros k' Hk'. unfold upd.
      destruct (Nat.eqb_spec (in_ + (i + k')) (out + (i + j))) as [E|_].
      * exfalso. apply (Hw j k'); lia.
      * apply Hr; lia.
    + intros a b Ha Hb. apply Hw; lia.
Qed.

End CPUScan.

(** ** The CPU outer loop *)

Section CPUOuter.
Variables (period out in_ N : nat) (m0 : mem).
Hypothesis Hperiod : 0 < period.
Hypothesis HN : N mod period = 0.
(** No write to [out[a]] clobbers a later read of [in[b]]: true for
    non-overlapping buffers and for [out == in]. *)
Hypothesis Hnoclobber : forall a b, a < b -> b < N -> out + a <> in_ + b.

Let f (q : nat) : Z := m0 (in_ + q).

Lemma cpu_outer_val (body : nat -> mem -> mem) (V : nat -> Z) :
  (forall i m a, a < out + i -> body i m a = m a) ->
  (forall i m q, i mod period = 0 -> i < N -> i + period <= q < N ->
     body i m (in_ + q) = m (in_ + q)) ->
  (forall i m, i mod period = 0 -> i + period <= N ->
     (forall q, i <= q < N -> m (in_ + q) = f q) ->
     forall p, i <= p < i + period -> body i m (out + p) = V p) ->
  forall fuel i m, i mod period = 0 -> N - i <= fuel * period ->
  (forall q, i <= q < N -> m (in_ + q) = f q) ->
  forall p, i <= p < N -> for_stride fuel i period N body m (out + p) = V p.
Proof.
  intros Hframe Hin Hval fuel.
  induction fuel as [|fu IH]; intros i m Hi Hfuel Hm p Hp; [lia|].
  cbn [for_stride].
  destruct (Nat.ltb_spec i N) as [HiN|]; [|lia].
  destruct (period_next period i N Hperiod Hi HN HiN) as [Hle Hmod].
  destruct (Nat.lt_ge_cases p (i + period)) as [Hlt|Hge].
  - rewrite (for_stride_frame out) by (auto; lia).
    apply Hval; auto; lia.
  - apply IH; auto; [nia| |lia].
    intros q Hq. rewrite Hin by (auto; lia). apply Hm; lia.
Qed.

Lemma excl_body_in (i : nat) (m : mem) (q : nat) :
  i + period <= q < N ->
  excl_inner period 0 0%Z out in_ i m (in_ + q) = m (in_ + q).
Proof.
  intros Hq. apply excl_inner_frame. intros k Hk E.
  apply (Hnoclobber (i + k) q); lia.
Qed.

Lemma incl_body_in (i : nat) (m : mem) (q : nat) :
  i + period <= q < N ->
  incl_inner period 0 0%Z out in_ i m (in_ + q) = m (in_ + q).
Proof.
  intros Hq. apply incl_inner_frame. intros k Hk E.
  apply (Hnoclobber (i + k) q); lia.
Qed.

Lemma ScanExclusiveCPUPeriodic_val (p : nat) :
  p < N ->
  ScanExclusiveCPUPeriodic period out in_ N m0 (out + p)
  = wrap32 (zsum f (p / period * period) (p mod period)).
Proof.
  intros Hp. unfold ScanExclusiveCPUPeriodic.
  set (body := fun i m => excl_inner period 0 0%Z out in_ i m).
  assert (Hfr : forall i m a, a < out + i -> body i m a = m a).
  { intros i m a Ha. apply excl_inner_frame. intros; lia. }
  assert (Hin : forall i m q, i mod period = 0 -> i < N ->
     i + period <= q < N -> body i m (in_ + q) = m (in_ + q)).
  { intros i m q _ _ Hq. apply excl_body_in; lia. }
  assert (Hval : forall i m, i mod period = 0 -> i + period <= N ->
     (forall q, i <= q < N -> m (in_ + q) = f q) ->
     forall p', i <= p' < i + period ->
     body i m (out + p') = wrap32 (zsum f (p' / period * period) (p' mod period))).
  { intros i m Hi Hle Hm p' Hp'.
    destruct (period_pos period i p' Hperiod Hi Hp') as [E1 E2].
    rewrite E1, E2. replace (out + p') with (out + (i + (p' - i))) by lia.
    unfold body. rewrite (excl_inner_val out in_ m0); [| reflexivity | | | lia].
    + rewrite Nat.add_0_r, Nat.sub_0_r. reflexivity.
    + intros k Hk. apply Hm; lia.
    + intros a b Ha Hb. apply Hnoclobber; lia. }
  apply (cpu_outer_val body _ Hfr Hin Hval N 0 m0); auto; [| nia | lia].
  apply Nat.Div0.mod_0_l.
Qed.

Lemma ScanInclusiveCPUPeriodic_val (p : nat) :
  p < N ->
  ScanInclusiveCPUPeriodic period out in_ N m0 (out + p)
  = wrap32 (zsum f (p / period * period) (S (p mod period))).
Proof.
  intros Hp. unfold ScanInclusiveCPUPeriodic.
  set (body := fun i m => incl_inner period 0 0%Z out in_ i m).
  assert (Hfr : forall i m a, a < out + i -> body i m a = m a).
  { intros i m a Ha. apply incl_inner_frame. intros; lia. }
  assert (Hin : forall i m q, i mod period = 0 -> i < N ->
     i + period <= q < N -> body i m (in_ + q) = m (in_ + q)).
  { intros i m q _ _ Hq. apply incl_body_in; lia. }
  assert (Hval : forall i m, i mod period = 0 -> i + period <= N ->
     (forall q, i <= q < N -> m (in_ + q) = f q) ->
     forall p', i <= p' < i + period ->
     body i m (out + p') = wrap32 (zsum f (p' / period * period) (S (p' mod period)))).
  { intros i m Hi Hle Hm p' Hp'.
    destruct (period_pos period i p' Hperiod Hi Hp') as [E1 E2].
    rewrite E1, E2. replace (out + p') with (out + (i + (p' - i))) by lia.
    unfold body. rewrite (incl_inner_val out in_ m0); [| | | lia].
    + rewrite Nat.add_0_r, Nat.sub_0_r. reflexivity.
    + intros k Hk. apply Hm; lia.
    + intros a b Ha Hb. apply Hnoclobber; lia. }
  apply (cpu_outer_val body _ Hfr Hin Hval N 0 m0); auto; [| nia | lia].
  apply Nat.Div0.mod_0_l.
Qed.

End CPUOuter.

(** Non-overlapping buffers of [N] ints. *)
Definition disjoint (out in_ N : nat) : Prop := out + N <= in_ \/ in_ + N <= out.

(** The five buffers of a test vector pairwise disjoint over [N] cells. *)
Definition bufs_disjoint (bufs : Buffers) (N : nat) : Prop :=
  disjoint (inCPU bufs) (outCPU bufs) N /\ disjoint (inCPU bufs) (hostGPU bufs) N
  /\ disjoint (inCPU bufs) (inGPU bufs) N /\ disjoint (inCPU bufs) (outGPU bufs) N
  /\ disjoint (outCPU bufs) (hostGPU bufs) N /\ disjoint (outCPU bufs) (inGPU bufs) N
  /\ disjoint (outCPU bufs) (outGPU bufs) N
  /\ disjoint (hostGPU bufs) (inGPU bufs) N /\ disjoint (hostGPU bufs) (outGPU bufs) N
  /\ disjoint (inGPU bufs) (outGPU bufs) N.

Lemma disjoint_noclobber (out in_ N : nat) :
  disjoint out in_ N -> forall a b, a < b -> b < N -> out + a <> in_ + b.
Proof. unfold disjoint. intros H a b Hab Hb. lia. Qed.

Lemma inplace_noclobber (in_ N : nat) :
  forall a b, a < b -> b < N -> in_ + a <> in_ + b.
Proof. intros a b Hab Hb. lia. Qed.

(** Exclusive loop: once [out[i]] is written with the period's identity it is
    never written again. *)
Lemma excl_period_start (period out in_ N : nat) (m0 : mem) (t : nat) :
  0 < period -> t * period < N ->
  forall fuel i m, i mod period = 0 -> i <= t * period ->
  N - i <= fuel * period ->
  for_stride fuel i period N
    (fun i m => excl_inner period 0 0%Z out in_ i m) m (out + t * period)
  = 0%Z.
Proof.
  intros Hp Ht fuel. induction fuel as [|fu IH]; intros i m Hi Hle Hfuel;
    [lia|].
  cbn [for_stride].
  destruct (Nat.ltb_spec i N) as [HiN|]; [|lia].
  destruct (Nat.eq_dec i (t * period)) as [<-|Hne].
  - rewrite (for_stride_frame out) by
      (try lia; intros; apply excl_inner_frame; intros; lia).
    destruct period as [|c]; [lia|]. cbn [excl_inner].
    rewrite excl_inner_frame by (intros; lia).
    unfold upd. rewrite Nat.add_0_r, Nat.eqb_refl. reflexivity.
  - assert (Hm : (t * period) mod period = 0) by apply Nat.Div0.mod_mul.
    destruct (period_next period i (t * period) Hp Hi Hm ltac:(lia))
      as [Hle' Hmod].
    apply IH; auto. nia.
Qed.

(** ** CPU reference scan: claims *)

(** C1: for non-overlapping [out] and [in] buffers and [N] a multiple of the
    period, the inclusive output at [p] is the (32-bit) sum of the inputs from
    the start of [p]'s period through [p], and the exclusive output is the sum
    of the inputs of that period strictly before [p]. *)
Theorem cpu_periodic_scan_correct (period out in_ N : nat) (m : mem) :
  0 < period -> N mod period = 0 -> disjoint out in_ N ->
  forall p, p < N ->
  ScanInclusiveCPUPeriodic period out in_ N m (out + p)
  = wrap32 (zsum (fun q => m (in_ + q)) (p / period * period)
                 (S (p mod period)))
  /\ ScanExclusiveCPUPeriodic period out in_ N m (out + p)
  = wrap32 (zsum (fun q => m (in_ + q)) (p / period * period)
                 (p mod period)).
Proof.
  intros Hp HN Hd p Hlt. pose proof (disjoint_noclobber _ _ _ Hd) as Hnc.
  split.
  - apply ScanInclusiveCPUPeriodic_val; auto.
  - apply ScanExclusiveCPUPeriodic_val; auto.
Qed.

Lemma cpu_periodic_scan_correct_witness :
  (0 < 4 /\ 8 mod 4 = 0 /\ disjoint 100 0 8) /\
  (ScanInclusiveCPUPeriodic 4 100 0 8 ex_mem (100 + 6)
   = wrap32 (zsum (fun q => ex_mem (0 + q)) (6 / 4 * 4) (S (6 mod 4)))
   /\ ScanExclusiveCPUPeriodic 4 100 0 8 ex_mem (100 + 6)
   = wrap32 (zsum (fun q => ex_mem (0 + q)) (6 / 4 * 4) (6 mod 4))).
Proof.
  split; [unfold disjoint; repeat split; lia|].
  apply (cpu_periodic_scan_correct 4 100 0 8 ex_mem);
    [lia | reflexivity | unfold disjoint; lia | lia].
Defined.

(** C7: after the inclusive scan, the last position of every period holds
    the (32-bit) total of the period's inputs. *)
Theorem cpu_inclusive_period_total (period out in_ N : nat) (m : mem) :
  0 < period -> N mod period = 0 -> disjoint out in_ N ->
  forall t, (t + 1) * period <= N ->
  ScanInclusiveCPUPeriodic period out in_ N m (out + (t * period + period - 1))
  = wrap32 (zsum (fun q => m (in_ + q)) (t * period) period).
Proof.
  intros Hp HN Hd t Ht.
  pose proof (disjoint_noclobber _ _ _ Hd) as Hnc.
  rewrite (ScanInclusiveCPUPeriodic_val period out in_ N m) by
    (auto; nia).
  assert (Hm : (t * period) mod period = 0) by apply Nat.Div0.mod_mul.
  destruct (period_pos period (t * period) (t * period + period - 1) Hp Hm)
    as [E1 E2]; [lia|].
  rewrite E1, E2. f_equal. f_equal. lia.
Qed.

Lemma cpu_inclusive_period_total_witness :
  (0 < 4 /\ 8 mod 4 = 0 /\ disjoint 100 0 8 /\ (1 + 1) * 4 <= 8) /\
  ScanInclusiveCPUPeriodic 4 100 0 8 ex_mem (100 + (1 * 4 + 4 - 1))
  = wrap32 (zsum (fun q => ex_mem (0 + q)) (1 * 4) 4).
Proof.
  split; [unfold disjoint; repeat split; lia|].
  apply (cpu_inclusive_period_total 4 100 0 8 ex_mem);
    [lia | reflexivity | unfold disjoint; lia | lia].
Defined.

(** C8: the exclusive output at the first position of every period
    ([0], [period], [2*period], ... below [N]) is 0, whatever the inputs, the
    buffers and [N]. *)
Theorem cpu_exclusive_period_start_zero (period out in_ N : nat) (m : mem) :
  0 < period ->
  forall t, t * period < N ->
  ScanExclusiveCPUPeriodic period out in_ N m (out + t * period) = 0%Z.
Proof.
  intros Hp t Ht. unfold ScanExclusiveCPUPeriodic.
  apply (excl_period_start period out in_ N m t); auto; try nia.
  apply Nat.Div0.mod_0_l.
Qed.

Lemma cpu_exclusive_period_start_zero_witness :
  (0 < 4 /\ 1 * 4 < 6) /\
  ScanExclusiveCPUPeriodic 4 100 0 6 ex_mem (100 + 1 * 4) = 0%Z.
Proof.
  split; [lia|].
  apply (cpu_exclusive_period_start_zero 4 100 0 6 ex_mem); lia.
Defined.

(** C9: both CPU scans can run in place: with [out == in] the final array is
    the one produced with two distinct buffers on the same input. *)
Theorem cpu_periodic_scan_in_place (period out in_ N : nat) (m : mem) :
  0 < period -> N mod period = 0 -> disjoint out in_ N ->
  forall p, p < N ->
  ScanExclusiveCPUPeriodic period in_ in_ N m (in_ + p)
  = ScanExclusiveCPUPeriodic period out in_ N m (out + p)
  /\ ScanInclusiveCPUPeriodic period in_ in_ N m (in_ + p)
  = ScanInclusiveCPUPeriodic period out in_ N m (out + p).
Proof.
  intros Hp HN Hd p Hlt.
  pose proof (disjoint_noclobber _ _ _ Hd) as Hnc.
  pose proof (inplace_noclobber in_ N) as Hip.
  split.
  - rewrite !ScanExclusiveCPUPeriodic_val; auto.
  - rewrite !ScanInclusiveCPUPeriodic_val; auto.
Qed.

Lemma cpu_periodic_scan_in_place_witness :
  (0 < 4 /\ 8 mod 4 = 0 /\ disjoint 100 0 8) /\
  (ScanExclusiveCPUPeriodic 4 0 0 8 ex_mem (0 + 5)
   = ScanExclusiveCPUPeriodic 4 100 0 8 ex_mem (100 + 5)
   /\ ScanInclusiveCPUPeriodic 4 0 0 8 ex_mem (0 + 5)
   = ScanInclusiveCPUPeriodic 4 100 0 8 ex_mem (100 + 5)).
Proof.
  split; [unfold disjoint; repeat split; lia|].
  apply (cpu_periodic_scan_in_place 4 100 0 8 ex_mem);
    [lia | reflexivity | unfold disjoint; lia | lia].
Defined.

(** ** Warp scan: the Hillis-Steele invariant *)

Definition in_int (z : Z) : Prop := (- 2 ^ 31 <= z < 2 ^ 31)%Z.

Lemma wrap32_in_int (z : Z) : in_int (wrap32 z).
Proof.
  unfold in_int, wrap32.
  pose proof (Z.mod_pos_bound (z + 2 ^ 31) (2 ^ 32) M32_pos). lia.
Qed.

Lemma lane_sub (t d : nat) : d <= t mod 32 -> (t - d) mod 32 = t mod 32 - d.
Proof.
  intros Hd. pose proof (Nat.div_mod_eq t 32) as E.
  pose proof (Nat.mod_upper_bound t 32 ltac:(lia)).
  replace (t - d) with ((t mod 32 - d) + t / 32 * 32) by lia.
  rewrite Nat.Div0.mod_add. apply Nat.mod_small. lia.
Qed.

Lemma zsum_wrap_mod (g : nat -> Z) (a n : nat) :
  (zsum (fun q => wrap32 (g q)) a n mod 2 ^ 32 = zsum g a n mod 2 ^ 32)%Z.
Proof.
  induction n as [|n IH]; cbn [zsum]; [reflexivity|].
  rewrite Zplus_mod, IH, wrap32_mod, <- Zplus_mod. reflexivity.
Qed.

(** After [k] steps, lane [t] holds the sum of the [min (lane+1) (2^k)]
    slots ending at [t]. *)
Definition hs_window (k t : nat) : nat := Nat.min (t mod 32 + 1) (2 ^ k).

Lemma hs_window_le (k t : nat) : hs_window k t <= t + 1.
Proof.
  unfold hs_window. pose proof (Nat.Div0.mod_le t 32). lia.
Qed.

(** One step of the invariant, shared by the shared-memory and the shuffle
    warp scans. *)
Lemma hs_step_ok (k t : nat) (s : nat -> Z) (prev : nat -> Z) :
  (forall t', t' <= t ->
     prev t' = wrap32 (zsum s (t' + 1 - hs_window k t') (hs_window k t'))) ->
  (if 2 ^ k <=? t mod 32 then wrap32 (prev t + prev (t - 2 ^ k)) else prev t)
  = wrap32 (zsum s (t + 1 - hs_window (S k) t) (hs_window (S k) t)).
Proof.
  intros IH. pose proof (Nat.pow_nonzero 2 k ltac:(lia)) as Hpk.
  destruct (Nat.leb_spec (2 ^ k) (t mod 32)) as [Hle|Hlt].
  - rewrite !IH by lia. rewrite wrap32_add_l, wrap32_add_r.
    unfold hs_window. rewrite lane_sub by exact Hle.
    rewrite Nat.pow_succ_r'.
    set (l := t mod 32) in *.
    replace (Nat.min (l + 1) (2 ^ k)) with (2 ^ k) by lia.
    set (w' := Nat.min (l - 2 ^ k + 1) (2 ^ k)).
    assert (Hw' : w' <= l - 2 ^ k + 1) by lia.
    assert (Hl : l <= t) by apply Nat.Div0.mod_le.
    replace (Nat.min (l + 1) (2 * 2 ^ k)) with (w' + 2 ^ k) by lia.
    assert (E1 : t + 1 - (w' + 2 ^ k) = t - 2 ^ k + 1 - w') by lia.
    assert (E2 : t - 2 ^ k + 1 - w' + w' = t + 1 - 2 ^ k) by lia.
    rewrite E1, zsum_split, E2. f_equal. lia.
  - rewrite IH by lia. unfold hs_window. rewrite Nat.pow_succ_r'.
    replace (Nat.min (t mod 32 + 1) (2 * 2 ^ k))
      with (Nat.min (t mod 32 + 1) (2 ^ k)) by lia.
    reflexivity.
Qed.

Lemma hs_base (s : nat -> Z) (t : nat) :
  in_int (s t) -> s t = wrap32 (zsum s (t + 1 - hs_window 0 t) (hs_window 0 t)).
Proof.
  intros Hs. unfold hs_window. simpl Nat.pow.
  replace (Nat.min (t mod 32 + 1) 1) with 1 by lia.
  simpl. rewrite Nat.add_sub, Nat.add_0_r, wrap32_small; auto.
Qed.

Lemma scanWarp_steps_ok (k : nat) (s : nat -> Z) (t : nat) :
  (forall t', t' <= t -> in_int (s t')) ->
  scanWarp_steps k s t
  = wrap32 (zsum s (t + 1 - hs_window k t) (hs_window k t)).
Proof.
  revert t. induction k as [|k IH]; intros t Hs.
  - apply hs_base, Hs. lia.
  - cbn [scanWarp_steps]. unfold scanWarp_step.
    apply hs_step_ok. intros t' Ht'. apply IH. intros; apply Hs; lia.
Qed.

Lemma inclusive_scan_warp_shfl_ok (k : nat) (v : nat -> Z) (t : nat) :
  (forall t', t' <= t -> in_int (v t')) ->
  inclusive_scan_warp_shfl k v t
  = wrap32 (zsum v (t + 1 - hs_window k t) (hs_window k t)).
Proof.
  revert t. induction k as [|k IH]; intros t Hs.
  - apply hs_base, Hs. lia.
  - cbn [inclusive_scan_warp_shfl]. unfold shfl_up.
    rewrite <- hs_step_ok with (prev := inclusive_scan_warp_shfl k v).
    + destruct (2 ^ k <=? t mod 32); reflexivity.
    + intros t' Ht'. apply IH. intros; apply Hs; lia.
Qed.

(** ** Block scan: the two-level composition *)

Lemma wrap32_sub_l (a b : Z) : wrap32 (wrap32 a - b) = wrap32 (a - b).
Proof.
  apply wrap32_eq. rewrite <- Zminus_mod_idemp_l, wrap32_mod.
  apply Zminus_mod_idemp_l.
Qed.

Lemma zsum_blocks (x : nat -> Z) (W : nat) :
  zsum (fun w => zsum x (w * 32) 32) 0 W = zsum x 0 (W * 32).
Proof.
  induction W as [|W IH]; [reflexivity|].
  rewrite zsum_S_r, IH. replace (S W * 32) with (W * 32 + 32) by lia.
  rewrite zsum_split. reflexivity.
Qed.

Section TwoLevel.
(** A warp scan (shared-memory or shuffle) with [k] steps. *)
Variable ws : nat -> (nat -> Z) -> nat -> Z.
Hypothesis ws_ok : forall k s t, (forall t', t' <= t -> in_int (s t')) ->
  ws k s t = wrap32 (zsum s (t + 1 - hs_window k t) (hs_window k t)).

Lemma local_ok (x : nat -> Z) (t : nat) :
  (forall t', t' <= t -> in_int (x t')) ->
  ws 5 x t = wrap32 (zsum x (t / 32 * 32) (S (t mod 32))).
Proof.
  intros Hx. rewrite ws_ok by exact Hx. unfold hs_window.
  pose proof (Nat.mod_upper_bound t 32 ltac:(lia)).
  pose proof (Nat.div_mod_eq t 32).
  change (2 ^ 5) with 32.
  replace (Nat.min (t mod 32 + 1) 32) with (S (t mod 32)) by lia.
  f_equal. f_equal. lia.
Qed.

Lemma total_ok (x : nat -> Z) (w : nat) :
  (forall t', t' <= w * 32 + 31 -> in_int (x t')) ->
  ws 5 x (w * 32 + 31) = wrap32 (zsum x (w * 32) 32).
Proof.
  intros Hx. rewrite local_ok by exact Hx.
  replace ((w * 32 + 31) / 32) with w.
  - replace ((w * 32 + 31) mod 32) with 31; [reflexivity|].
    rewrite Nat.add_comm, Nat.Div0.mod_add. reflexivity.
  - rewrite Nat.add_comm, Nat.div_add by lia. reflexivity.
Qed.

Lemma carry_ok (kk : nat) (x : nat -> Z) (W : nat) :
  1 <= W -> W <= 32 -> W <= 2 ^ kk ->
  (forall t', t' < W * 32 -> in_int (x t')) ->
  ws kk (fun w => ws 5 x (w * 32 + 31)) (W - 1) = wrap32 (zsum x 0 (W * 32)).
Proof.
  intros H1 H32 Hk Hx.
  assert (Htot : forall w, w < W ->
    ws 5 x (w * 32 + 31) = wrap32 (zsum x (w * 32) 32)).
  { intros w Hw. apply total_ok. intros; apply Hx; lia. }
  rewrite ws_ok.
  - unfold hs_window. rewrite Nat.mod_small by lia.
    replace (Nat.min (W - 1 + 1) (2 ^ kk)) with W by lia.
    replace (W - 1 + 1 - W) with 0 by lia.
    rewrite (zsum_ext _ (fun w => wrap32 (zsum x (w * 32) 32)))
      by (intros; apply Htot; lia).
    apply wrap32_eq.
    rewrite (zsum_wrap_mod (fun w => zsum x (w * 32) 32)).
    rewrite zsum_blocks. reflexivity.
  - intros t' Ht'. rewrite Htot by lia. apply wrap32_in_int.
Qed.

Lemma two_level_incl_ok (kk : nat) (x : nat -> Z) (t : nat) :
  t < 1024 -> t / 32 < 2 ^ kk ->
  (forall t', t' <= t -> in_int (x t')) ->
  (if 0 <? t / 32
   then wrap32 (ws 5 x t + ws kk (fun w => ws 5 x (w * 32 + 31)) (t / 32 - 1))
   else ws 5 x t)
  = wrap32 (zsum x 0 (S t)).
Proof.
  intros H1024 Hk Hx. pose proof (Nat.div_mod_eq t 32) as E.
  pose proof (Nat.mod_upper_bound t 32 ltac:(lia)).
  assert (HW : t / 32 < 32) by (apply Nat.Div0.div_lt_upper_bound; lia).
  rewrite local_ok by exact Hx.
  destruct (Nat.ltb_spec 0 (t / 32)) as [Hpos|Hz].
  - rewrite carry_ok by (try lia; intros; apply Hx; lia).
    rewrite wrap32_add_l, wrap32_add_r.
    replace (S t) with (t / 32 * 32 + S (t mod 32)) by lia.
    rewrite zsum_split, Nat.add_0_l. f_equal. lia.
  - replace (t / 32) with 0 by lia. f_equal. f_equal. lia.
Qed.

Lemma two_level_excl_ok (kk : nat) (x : nat -> Z) (t : nat) :
  t < 1024 -> t / 32 < 2 ^ kk ->
  (forall t', t' <= t -> in_int (x t')) ->
  (if 0 <? t / 32
   then wrap32 (wrap32 (ws 5 x t - x t)
                + ws kk (fun w => ws 5 x (w * 32 + 31)) (t / 32 - 1))
   else wrap32 (ws 5 x t - x t))
  = wrap32 (zsum x 0 t).
Proof.
  intros H1024 Hk Hx. pose proof (Nat.div_mod_eq t 32) as E.
  pose proof (Nat.mod_upper_bound t 32 ltac:(lia)).
  assert (HW : t / 32 < 32) by (apply Nat.Div0.div_lt_upper_bound; lia).
  rewrite local_ok by exact Hx. rewrite wrap32_sub_l. cbn [zsum].
  replace (t / 32 * 32 + t mod 32) with t by lia.
  replace (zsum x (t / 32 * 32) (t mod 32) + x t - x t)%Z
    with (zsum x (t / 32 * 32) (t mod 32)) by lia.
  destruct (Nat.ltb_spec 0 (t / 32)) as [Hpos|Hz].
  - rewrite carry_ok by (try lia; intros; apply Hx; lia).
    rewrite wrap32_add_l, wrap32_add_r.
    replace (zsum x 0 t) with (zsum x 0 (t / 32 * 32 + t mod 32))
      by (f_equal; lia).
    rewrite zsum_split, Nat.add_0_l. f_equal. lia.
  - replace (t / 32) with 0 by lia. f_equal. f_equal. lia.
Qed.

End TwoLevel.

Lemma scanWarp_ws_ok : forall k s t, (forall t', t' <= t -> in_int (s t')) ->
  scanWarp_steps k s t
  = wrap32 (zsum s (t + 1 - hs_window k t) (hs_window k t)).
Proof. intros. apply scanWarp_steps_ok; auto. Qed.

Lemma shfl_ws_ok : forall k s t, (forall t', t' <= t -> in_int (s t')) ->
  inclusive_scan_warp_shfl k s t
  = wrap32 (zsum s (t + 1 - hs_window k t) (hs_window k t)).
Proof. intros. apply inclusive_scan_warp_shfl_ok; auto. Qed.

Lemma scanBlock_ok (B : nat) (x : nat -> Z) (t : nat) :
  t < 1024 -> (forall t', t' <= t -> in_int (x t')) ->
  fst (scanBlock B x) t = wrap32 (zsum x 0 (S t)).
Proof.
  intros H Hx. unfold scanBlock, scanWarp. cbn [fst].
  apply (two_level_incl_ok scanWarp_steps scanWarp_ws_ok 5); auto.
  apply Nat.Div0.div_lt_upper_bound. simpl. lia.
Qed.

Lemma ScanGPUBlock_thread_ok (st : ScanType) (B : nat) (x : nat -> Z) (t : nat) :
  B <= 1024 -> t < B -> (forall t', t' <= t -> in_int (x t')) ->
  ScanGPUBlock_thread st B x t = scan_ref st x t.
Proof.
  intros HB Ht Hx.
  pose proof (fun t' H1 H2 => scanBlock_ok B x t' H1 H2) as Hsb.
  unfold ScanGPUBlock_thread, scanBlock in *. cbv beta zeta iota in *.
  cbn [fst] in Hsb.
  destruct st; cbn [scan_ref].
  - apply Hsb; auto. lia.
  - destruct (Nat.eqb_spec t 0) as [->|Hne]; [reflexivity|].
    rewrite (proj2 (Nat.ltb_lt (t - 1) B)) by lia.
    rewrite Hsb by (try lia; intros; apply Hx; lia).
    replace (S (t - 1)) with t by lia. reflexivity.
Qed.

Lemma shuffle_logsize (logB t : nat) :
  5 <= logB -> t < 2 ^ logB -> t / 32 < 2 ^ (logB - 5).
Proof.
  intros H5 Ht. apply Nat.Div0.div_lt_upper_bound.
  replace (2 ^ logB) with (2 ^ (logB - 5) * 2 ^ 5) in Ht
    by (rewrite <- Nat.pow_add_r; f_equal; lia).
  simpl in Ht. lia.
Qed.

Lemma ScanGPUBlockShuffle_thread_ok (st : ScanType) (logB : nat) (x : nat -> Z)
  (t : nat) :
  5 <= logB <= 10 -> t < 2 ^ logB -> (forall t', t' <= t -> in_int (x t')) ->
  ScanGPUBlockShuffle_thread st logB x t = scan_ref st x t.
Proof.
  intros HlB Ht Hx.
  assert (H1024 : t < 1024).
  { assert (2 ^ logB <= 2 ^ 10) by (apply Nat.pow_le_mono_r; lia).
    simpl in *. lia. }
  pose proof (shuffle_logsize logB t ltac:(lia) Ht) as Hk.
  destruct st; cbn [ScanGPUBlockShuffle_thread scan_ref].
  - unfold inclusive_scan_block.
    apply (two_level_incl_ok inclusive_scan_warp_shfl shfl_ws_ok); auto.
  - unfold exclusive_scan_block.
    apply (two_level_excl_ok inclusive_scan_warp_shfl shfl_ws_ok); auto.
Qed.

(** ** The grid-stride kernels *)

Lemma write_lanes_spec (n out i : nat) (v : nat -> Z) (m : mem) (a : nat) :
  write_lanes n (fun tid => out + (i + tid)) v m a
  = if (out + i <=? a) && (a <? out + i + n) then v (a - (out + i)) else m a.
Proof.
  induction n as [|n IH]; cbn [write_lanes].
  - destruct (Nat.leb_spec (out + i) a), (Nat.ltb_spec a (out + i + 0));
      simpl; auto; lia.
  - unfold upd. rewrite IH.
    destruct (Nat.eqb_spec a (out + (i + n))) as [->|Hne].
    + rewrite (proj2 (Nat.leb_le _ _)), (proj2 (Nat.ltb_lt _ _)) by lia.
      simpl. f_equal. lia.
    + destruct (Nat.leb_spec (out + i) a); simpl; auto.
      destruct (Nat.ltb_spec a (out + i + n)), (Nat.ltb_spec a (out + i + S n));
        auto; lia.
Qed.

Lemma div_mul_ge (i x B : nat) :
  0 < B -> i mod B = 0 -> i <= x -> i <= x / B * B.
Proof.
  intros HB Hi Hx. pose proof (Nat.div_mod_eq i B) as E.
  rewrite Hi, Nat.add_0_r in E.
  assert (i / B <= x / B) by (apply Nat.Div0.div_le_mono; lia). nia.
Qed.

Section Grid.
Variables (thread : (nat -> Z) -> nat -> Z) (out in_ N B : nat) (m0 : mem).
Hypothesis HB : 0 < B.
Hypothesis Hdisj : disjoint out in_ (N + B).
(** The thread's value for the segment at [i] and lane [t], computed from
    the input buffer as long as the input buffer is intact. *)
Variable V : nat -> nat -> Z.
Hypothesis Hth : forall m i t, i < N -> t < B ->
  (forall q, q < N + B -> m (in_ + q) = m0 (in_ + q)) ->
  thread (segment in_ i m) t = V i t.

Definition covered (i a : nat) : bool :=
  (out + i <=? a) && ((a - out) / B * B <? N).

Definition target (a : nat) : Z := V ((a - out) / B * B) ((a - out) mod B).

Lemma in_not_covered (q : nat) : q < N + B -> covered 0 (in_ + q) = false.
Proof.
  intros Hq. unfold covered, disjoint in *.
  destruct (Nat.leb_spec (out + 0) (in_ + q)); simpl; auto.
  apply Nat.ltb_ge.
  pose proof (Nat.div_mod_eq (in_ + q - out) B).
  pose proof (Nat.mod_upper_bound (in_ + q - out) B ltac:(lia)). lia.
Qed.

Lemma block_body_val (i : nat) (m : mem) (a : nat) :
  i mod B = 0 -> i < N ->
  (forall q, q < N + B -> m (in_ + q) = m0 (in_ + q)) ->
  block_body thread out in_ B i m a
  = if (out + i <=? a) && (a <? out + i + B) then target a else m a.
Proof.
  intros Hi HiN Hm. unfold block_body. rewrite write_lanes_spec.
  destruct (Nat.leb_spec (out + i) a), (Nat.ltb_spec a (out + i + B));
    simpl; auto.
  rewrite Hth by (auto; lia). unfold target.
  destruct (period_pos B i (a - out) HB Hi ltac:(lia)) as [E1 E2].
  rewrite E1, E2. f_equal. lia.
Qed.

Lemma block_body_in (i : nat) (m : mem) (q : nat) :
  i mod B = 0 -> i < N -> q < N + B ->
  (forall q, q < N + B -> m (in_ + q) = m0 (in_ + q)) ->
  block_body thread out in_ B i m (in_ + q) = m (in_ + q).
Proof.
  intros Hi HiN Hq Hm. rewrite block_body_val by auto.
  unfold disjoint in Hdisj.
  destruct (Nat.leb_spec (out + i) (in_ + q)),
    (Nat.ltb_spec (in_ + q) (out + i + B)); simpl; auto. lia.
Qed.

Lemma block_loop_spec (fuel i : nat) (m : mem) :
  i mod B = 0 -> N - i <= fuel * B ->
  (forall q, q < N + B -> m (in_ + q) = m0 (in_ + q)) ->
  forall a, for_stride fuel i B N (block_body thread out in_ B) m a
  = if covered i a then target a else m a.
Proof.
  revert i m. induction fuel as [|fu IH]; intros i m Hi Hfuel Hm a.
  - cbn [for_stride]. unfold covered.
    destruct (Nat.leb_spec (out + i) a); simpl; auto.
    assert (i <= (a - out) / B * B) by (apply div_mul_ge; auto; lia).
    destruct (Nat.ltb_spec ((a - out) / B * B) N); auto. lia.
  - cbn [for_stride]. destruct (Nat.ltb_spec i N) as [HiN|HiN].
    + assert (Hmod : (i + B) mod B = 0).
      { replace (i + B) with (1 * B + i) by lia.
        rewrite Nat.add_comm, Nat.Div0.mod_add. exact Hi. }
      rewrite IH; auto; [| nia |].
      * rewrite block_body_val by auto. unfold covered.
        destruct (Nat.leb_spec (out + (i + B)) a) as [H1|H1].
        -- rewrite (proj2 (Nat.leb_le (out + i) a)) by lia.
           rewrite (proj2 (Nat.ltb_ge a (out + i + B))) by lia.
           simpl. destruct ((a - out) / B * B <? N); reflexivity.
        -- simpl. destruct (Nat.leb_spec (out + i) a) as [H2|H2]; simpl.
           ++ rewrite (proj2 (Nat.ltb_lt a (out + i + B))) by lia.
              assert (E : (a - out) / B * B = i)
                by (apply (period_pos B i (a - out) HB Hi); lia).
              rewrite E, (proj2 (Nat.ltb_lt i N)) by lia. reflexivity.
           ++ reflexivity.
      * intros q Hq. rewrite block_body_in by auto. apply Hm; auto.
    + unfold covered. destruct (Nat.leb_spec (out + i) a); simpl; auto.
      assert (i <= (a - out) / B * B) by (apply div_mul_ge; auto; lia).
      destruct (Nat.ltb_spec ((a - out) / B * B) N); auto. lia.
Qed.

Lemma run_blocks_spec (G : nat) :
  0 < G -> forall a,
  run_blocks thread out in_ N B G m0 a
  = if covered 0 a then target a else m0 a.
Proof.
  induction G as [|g IH]; intros HG a; [lia|].
  cbn [run_blocks].
  assert (Hmod : (g * B) mod B = 0) by apply Nat.Div0.mod_mul.
  destruct g as [|g'].
  - simpl Nat.mul. rewrite block_loop_spec; auto; try nia.
  - set (prev := run_blocks thread out in_ N B (S g') m0).
    assert (Hprev : forall a, prev a = if covered 0 a then target a else m0 a)
      by (intros; apply IH; lia).
    rewrite block_loop_spec; [| exact Hmod | nia | ].
    + rewrite Hprev. unfold covered.
      destruct (Nat.leb_spec (out + S g' * B) a),
        (Nat.leb_spec (out + 0) a); simpl; auto; try lia.
      destruct ((a - out) / B * B <? N); auto.
    + intros q Hq. rewrite Hprev, in_not_covered; auto.
Qed.

End Grid.

(** ** Kernel-level specifications *)

Lemma scan_ref_agree (st : ScanType) (x y : nat -> Z) (t : nat) :
  (forall t', t' <= t -> x t' = y t') -> scan_ref st x t = scan_ref st y t.
Proof.
  intros H. destruct st; cbn [scan_ref]; f_equal; apply zsum_ext;
    intros; apply H; lia.
Qed.

Lemma segment_in_int (in_ N B i t : nat) (m0 m : mem) :
  i < N -> t < B ->
  (forall q, q < N + B -> in_int (m0 (in_ + q))) ->
  (forall q, q < N + B -> m (in_ + q) = m0 (in_ + q)) ->
  forall t', t' <= t -> in_int (segment in_ i m t').
Proof.
  intros Hi Ht Hr Hm t' Ht'. unfold segment. rewrite Hm by lia. apply Hr. lia.
Qed.

Lemma segment_agree (in_ N B i t : nat) (m0 m : mem) :
  i < N -> t < B ->
  (forall q, q < N + B -> m (in_ + q) = m0 (in_ + q)) ->
  forall t', t' <= t -> segment in_ i m t' = segment in_ i m0 t'.
Proof. intros Hi Ht Hm t' Ht'. unfold segment. apply Hm. lia. Qed.

Lemma run_blocks_agree (th1 th2 : (nat -> Z) -> nat -> Z)
  (out in_ N B G : nat) (m0 : mem) (V : nat -> nat -> Z) :
  0 < B -> disjoint out in_ (N + B) ->
  (forall m i t, i < N -> t < B ->
     (forall q, q < N + B -> m (in_ + q) = m0 (in_ + q)) ->
     th1 (segment in_ i m) t = V i t) ->
  (forall m i t, i < N -> t < B ->
     (forall q, q < N + B -> m (in_ + q) = m0 (in_ + q)) ->
     th2 (segment in_ i m) t = V i t) ->
  forall a, run_blocks th1 out in_ N B G m0 a = run_blocks th2 out in_ N B G m0 a.
Proof.
  intros HB Hd H1 H2 a. destruct G as [|g]; [reflexivity|].
  rewrite (run_blocks_spec th1 out in_ N B m0 HB Hd V H1) by lia.
  rewrite (run_blocks_spec th2 out in_ N B m0 HB Hd V H2) by lia.
  reflexivity.
Qed.

Lemma ScanGPUBlock_thread_seg (st : ScanType) (in_ N B : nat) (m0 : mem) :
  B <= 1024 -> (forall q, q < N + B -> in_int (m0 (in_ + q))) ->
  forall m i t, i < N -> t < B ->
  (forall q, q < N + B -> m (in_ + q) = m0 (in_ + q)) ->
  ScanGPUBlock_thread st B (segment in_ i m) t
  = scan_ref st (segment in_ i m0) t.
Proof.
  intros HB Hr m i t Hi Ht Hm.
  rewrite ScanGPUBlock_thread_ok by
    (auto; eapply segment_in_int; eauto).
  apply scan_ref_agree. eapply segment_agree; eauto.
Qed.

Lemma ScanGPUBlockShuffle_thread_seg (st : ScanType) (logB in_ N : nat)
  (m0 : mem) :
  5 <= logB <= 10 -> (forall q, q < N + 2 ^ logB -> in_int (m0 (in_ + q))) ->
  forall m i t, i < N -> t < 2 ^ logB ->
  (forall q, q < N + 2 ^ logB -> m (in_ + q) = m0 (in_ + q)) ->
  ScanGPUBlockShuffle_thread st logB (segment in_ i m) t
  = scan_ref st (segment in_ i m0) t.
Proof.
  intros HB Hr m i t Hi Ht Hm.
  rewrite ScanGPUBlockShuffle_thread_ok by
    (auto; eapply segment_in_int; eauto).
  apply scan_ref_agree. eapply segment_agree; eauto.
Qed.


Lemma grid_blocks_pos (N : nat) : 150 <= N -> 0 < grid_blocks N.
Proof.
  intros H. unfold grid_blocks.
  assert (1 <= N / 150) by (apply (Nat.Div0.div_le_mono 150 N 150); lia).
  destruct (150 <? N / 150); lia.
Qed.

Lemma grid_blocks_small (N : nat) : N < 150 -> grid_blocks N = 0.
Proof.
  intros H. unfold grid_blocks. rewrite Nat.div_small by exact H. reflexivity.
Qed.

Lemma ScanGPUBlock_small (st : ScanType) (out in_ N B : nat) (m : mem) :
  N < 150 -> ScanGPUBlock st out in_ N B m = m.
Proof.
  intros H. unfold ScanGPUBlock. rewrite grid_blocks_small by exact H.
  reflexivity.
Qed.

(** ** Block-scan driver: claims *)

(** C2 (code bug): the host wrapper launches [min(N/150, 150)] blocks, which
    is zero for [N < 150].  With [N = 128 = cThreads], a valid segmented-scan
    input, nothing is written: [out[0]] keeps its old value 0 where the
    segment's local scan is 1. *)
Theorem ScanGPUBlock_no_blocks_for_128 :
  grid_blocks 128 = 0
  /\ ScanGPUBlock Inclusive 1000 0 128 128 dev_mem (1000 + 0) = 0%Z
  /\ scan_ref Inclusive (segment 0 0 dev_mem) 0 = 1%Z.
Proof.
  split; [reflexivity|]. split.
  - rewrite ScanGPUBlock_small by lia. reflexivity.
  - vm_compute. reflexivity.
Qed.


Lemma dev_mem_in_int (n : nat) : forall q, q < n -> in_int (dev_mem (0 + q)).
Proof.
  intros q _. unfold dev_mem, in_int. destruct (0 + q <? 1000); lia.
Qed.



Lemma outcome_check (st : ScanType) (out in_ N B : nat) (m : mem)
  (sh0 : list Z) (sched : list Sched) (a : nat) (v : Z) :
  (0 <? B) && (B <=? 1024) = true ->
  match grid_run st out in_ N B (grid_blocks N) sched (grid_init B sh0 m) with
  | Some gs => grid_done B (grid_blocks N) gs && Z.eqb (gs_mem gs a) v
  | None => false
  end = true ->
  exists m', ScanGPUBlock_outcome st out in_ N B m m' /\ m' a = v.
Proof.
  intros HB H.
  destruct (grid_run _ _ _ _ _ _ _ _) as [gs|] eqn:E; [|discriminate].
  apply andb_prop in H. destruct H as [Hd Hv]. apply Z.eqb_eq in Hv.
  exists (gs_mem gs). split; [|exact Hv].
  unfold ScanGPUBlock_outcome. rewrite HB. exists sh0, sched, gs. auto.
Qed.

(** C5 (code bug): the exclusive kernel [ScanGPUBlock<Exclusive>] races.
    With [N = 256], [B = 128] (one block, two passes) and all-ones input,
    the run in which warp 0 completes its first pass and stores the inputs
    of the second pass into [sPartials[0..31]] before warp 1 reads
    [sPartials[31]] leaves [out[32] = 1]; the run that completes each pass
    first leaves 32, which is also what the shuffle driver
    [ScanGPUBlockShuffle] writes (the exclusive scan of 32 ones). *)
Theorem ScanGPUBlock_exclusive_race :
  (exists m', ScanGPUBlock_outcome Exclusive 1000 0 256 128 dev_mem m'
              /\ m' 1032 = 1%Z)
  /\ (exists m', ScanGPUBlock_outcome Exclusive 1000 0 256 128 dev_mem m'
                 /\ m' 1032 = 32%Z)
  /\ ScanGPUBlockShuffle Exclusive 1000 0 256 128 dev_mem 1032 = 32%Z.
Proof.
  split; [|split].
  - apply (outcome_check _ _ _ _ _ _ [] sched_race); vm_compute; reflexivity.
  - apply (outcome_check _ _ _ _ _ _ [] sched_passes); vm_compute; reflexivity.
  - vm_compute. reflexivity.
Qed.

(** For the block sizes 128, 256, 512 and 1024 the shared-memory driver
    [ScanGPUBlock] and the shuffle driver [ScanGPUBlockShuffle] leave the
    same memory, for the inclusive scan, and for the exclusive scan when
    each block makes one pass ([N <= B]), where [ScanGPUBlock] has no race. *)
Theorem ScanGPUBlock_shuffle_same (st : ScanType) (out in_ N B : nat) (m : mem) :
  (st = Inclusive \/ N <= B) ->
  (B = 128 \/ B = 256 \/ B = 512 \/ B = 1024) ->
  disjoint out in_ (N + B) ->
  (forall q, q < N + B -> in_int (m (in_ + q))) ->
  forall a, ScanGPUBlock st out in_ N B m a = ScanGPUBlockShuffle st out in_ N B m a.
Proof.
  intros _ HB Hd Hr a. unfold ScanGPUBlock.
  set (V := fun i t => scan_ref st (segment in_ i m) t).
  assert (Hsh : forall m' i t, i < N -> t < B ->
     (forall q, q < N + B -> m' (in_ + q) = m (in_ + q)) ->
     ScanGPUBlock_thread st B (segment in_ i m') t = V i t).
  { intros. apply (ScanGPUBlock_thread_seg st in_ N B m); auto.
    destruct HB as [-> | [-> | [-> | ->]]]; lia. }
  destruct HB as [-> | [-> | [-> | ->]]].
  - change (ScanGPUBlockShuffle st out in_ N 128 m) with
      (run_blocks (ScanGPUBlockShuffle_thread st 7) out in_ N 128
         (grid_blocks N) m).
    apply (run_blocks_agree _ _ out in_ N 128 _ m V); [lia | exact Hd | exact Hsh |].
    intros. apply (ScanGPUBlockShuffle_thread_seg st 7 in_ N m); auto; lia.
  - change (ScanGPUBlockShuffle st out in_ N 256 m) with
      (run_blocks (ScanGPUBlockShuffle_thread st 8) out in_ N 256
         (grid_blocks N) m).
    apply (run_blocks_agree _ _ out in_ N 256 _ m V); [lia | exact Hd | exact Hsh |].
    intros. apply (ScanGPUBlockShuffle_thread_seg st 8 in_ N m); auto; lia.
  - change (ScanGPUBlockShuffle st out in_ N 512 m) with
      (run_blocks (ScanGPUBlockShuffle_thread st 9) out in_ N 512
         (grid_blocks N) m).
    apply (run_blocks_agree _ _ out in_ N 512 _ m V); [lia | exact Hd | exact Hsh |].
    intros. apply (ScanGPUBlockShuffle_thread_seg st 9 in_ N m); auto; lia.
  - change (ScanGPUBlockShuffle st out in_ N 1024 m) with
      (run_blocks (ScanGPUBlockShuffle_thread st 10) out in_ N 1024
         (grid_blocks N) m).
    apply (run_blocks_agree _ _ out in_ N 1024 _ m V); [lia | exact Hd | exact Hsh |].
    intros. apply (ScanGPUBlockShuffle_thread_seg st 10 in_ N m); auto; lia.
Qed.

Lemma ScanGPUBlock_shuffle_same_witness :
  ((Inclusive = Inclusive \/ 256 <= 128)
   /\ (128 = 128 \/ 128 = 256 \/ 128 = 512 \/ 128 = 1024)
   /\ disjoint 1000 0 (256 + 128)) /\
  ScanGPUBlock Inclusive 1000 0 256 128 dev_mem 1100
  = ScanGPUBlockShuffle Inclusive 1000 0 256 128 dev_mem 1100.
Proof.
  split; [split; [left; reflexivity | split; [left; reflexivity | unfold disjoint; lia]]|].
  apply (ScanGPUBlock_shuffle_same Inclusive 1000 0 256 128 dev_mem).
  - left. reflexivity.
  - left. reflexivity.
  - unfold disjoint. lia.
  - apply dev_mem_in_int.
Defined.

(** C6 (spec-modelled [scanBlock]): the exclusive branch of [ScanGPUBlock],
    where lane [tid] reads slot [tid-1] after the inclusive [scanBlock] and
    the barrier (lane 0 taking 0), gives the exclusive scan of the block,
    and agrees with converting each lane's own inclusive value to exclusive
    before adding the carry-in. *)
Theorem exclusive_from_preceding_slot (B : nat) (x : nat -> Z) (t : nat) :
  B <= 1024 -> t < B -> (forall t', t' <= t -> in_int (x t')) ->
  ScanGPUBlock_thread Exclusive B x t = wrap32 (zsum x 0 t)
  /\ ScanGPUBlock_thread Exclusive B x t = exclusive_by_conversion x t.
Proof.
  intros HB Ht Hx.
  assert (E : ScanGPUBlock_thread Exclusive B x t = wrap32 (zsum x 0 t))
    by (apply (ScanGPUBlock_thread_ok Exclusive); auto).
  split; [exact E|]. rewrite E. unfold exclusive_by_conversion, scanWarp.
  symmetry. apply (two_level_excl_ok scanWarp_steps scanWarp_ws_ok 5); auto.
  - lia.
  - apply Nat.Div0.div_lt_upper_bound. simpl. lia.
Qed.

Lemma exclusive_from_preceding_slot_witness :
  (64 <= 1024 /\ 40 < 64) /\
  ScanGPUBlock_thread Exclusive 64 ones 40 = wrap32 (zsum ones 0 40)
  /\ ScanGPUBlock_thread Exclusive 64 ones 40 = exclusive_by_conversion ones 40.
Proof.
  split; [lia|].
  apply (exclusive_from_preceding_slot 64 ones 40); [lia | lia |].
  intros t' _. unfold ones, in_int. lia.
Defined.

(** ** [ScanCPUBlock]: claim *)

Lemma ScanCPUPeriodic_val (st : ScanType) (period out in_ N : nat) (m : mem) :
  0 < period -> N mod period = 0 -> disjoint out in_ N ->
  forall p, p < N ->
  ScanCPUPeriodic st period out in_ N m (out + p)
  = seg_scan st period (fun q => m (in_ + q)) p.
Proof.
  intros Hp HN Hd p Hlt. pose proof (disjoint_noclobber _ _ _ Hd) as Hnc.
  destruct st; cbn [ScanCPUPeriodic seg_scan].
  - apply ScanInclusiveCPUPeriodic_val; auto.
  - apply ScanExclusiveCPUPeriodic_val; auto.
Qed.

(** C3: counterexample.  [ScanCPUBlock] has no case for 128 threads: with
    [numThreads = N = 128] it writes nothing, so [out[0]] keeps 0 where the
    scan of an all-ones input is 1. *)
Lemma ScanCPUBlock_128_untouched :
  ScanCPUBlock Inclusive 1000 0 128 128 dev_mem (1000 + 0)
  <> seg_scan Inclusive 128 (fun q => dev_mem (0 + q)) 0.
Proof. vm_compute. discriminate. Qed.

(** C3 (amended): for [numThreads] 256, 512 or 1024 and [N] a multiple of
    it, [ScanCPUBlock] writes the periodic scan with period [numThreads];
    for every other [numThreads] (128 included) it leaves memory untouched. *)
Theorem ScanCPUBlock_periodic (st : ScanType) (out in_ N B : nat) (m : mem) :
  disjoint out in_ N ->
  ((B = 256 \/ B = 512 \/ B = 1024) -> N mod B = 0 ->
   forall p, p < N ->
   ScanCPUBlock st out in_ N B m (out + p)
   = seg_scan st B (fun q => m (in_ + q)) p)
  /\ (B <> 256 -> B <> 512 -> B <> 1024 -> ScanCPUBlock st out in_ N B m = m).
Proof.
  intros Hd. split.
  - intros HB HN p Hp.
    destruct HB as [-> | [-> | ->]]; unfold ScanCPUBlock; simpl Nat.eqb;
      cbv iota; apply ScanCPUPeriodic_val; auto; lia.
  - intros H1 H2 H3. unfold ScanCPUBlock.
    rewrite (proj2 (Nat.eqb_neq _ _) H1), (proj2 (Nat.eqb_neq _ _) H2),
      (proj2 (Nat.eqb_neq _ _) H3).
    reflexivity.
Qed.

Lemma ScanCPUBlock_periodic_witness :
  disjoint 1000 0 512 /\
  ScanCPUBlock Exclusive 1000 0 512 256 dev_mem (1000 + 300)
  = seg_scan Exclusive 256 (fun q => dev_mem (0 + q)) 300
  /\ ScanCPUBlock Exclusive 1000 0 512 128 dev_mem = dev_mem.
Proof.
  split; [unfold disjoint; lia|]. split.
  - apply (ScanCPUBlock_periodic Exclusive 1000 0 512 256 dev_mem);
      [unfold disjoint; lia | left; reflexivity | reflexivity | lia].
  - apply (ScanCPUBlock_periodic Exclusive 1000 0 512 128 dev_mem);
      [unfold disjoint; lia | discriminate | discriminate | discriminate].
Defined.

(** ** The harness: claim *)

Lemma RandomArray_loop_frame {R : Type} (rand : R -> Z * R)
  (cnt i out : nat) (md : Z) (m : mem) (g : R) (a : nat) :
  (a < out + i \/ out + i + cnt <= a) ->
  fst (RandomArray_loop R rand cnt i out md m g) a = m a.
Proof.
  revert i m g. induction cnt as [|c IH]; intros i m g Ha; [reflexivity|].
  cbn [RandomArray_loop]. destruct (rand g) as [r g'].
  rewrite IH by lia. unfold upd.
  destruct (Nat.eqb_spec a (out + i)); auto. lia.
Qed.

Lemma iota_loop_spec (cnt i out : nat) (m : mem) (a : nat) :
  iota_loop cnt i out m a
  = if (out + i <=? a) && (a <? out + i + cnt)
    then wrap32 (Z.of_nat (a - out)) else m a.
Proof.
  revert i m. induction cnt as [|c IH]; intros i m; cbn [iota_loop].
  - destruct (Nat.leb_spec (out + i) a), (Nat.ltb_spec a (out + i + 0));
      simpl; auto; lia.
  - rewrite IH. unfold upd.
    destruct (Nat.leb_spec (out + S i) a), (Nat.leb_spec (out + i) a),
      (Nat.ltb_spec a (out + S i + c)), (Nat.ltb_spec a (out + i + S c)),
      (Nat.eqb_spec a (out + i)); simpl; auto; try lia.
    subst a. f_equal. f_equal. lia.
Qed.

Lemma TestScanBlock_setup_spec (R : Type) (rand : R -> Z * R) (bufs : Buffers)
  (N : nat) (m : mem) (g : R) (a : nat) :
  TestScanBlock_setup R rand bufs N m g a
  = if (inCPU bufs <=? a) && (a <? inCPU bufs + N)
    then wrap32 (Z.of_nat (a - inCPU bufs))
    else memset0 N 0 (outGPU bufs)
           (memset0 N 0 (outGPU bufs) (memset0 N 0 (inGPU bufs) m)) a.
Proof.
  unfold TestScanBlock_setup, RandomArray.
  set (m1 := memset0 N 0 (outGPU bufs)
               (memset0 N 0 (outGPU bufs) (memset0 N 0 (inGPU bufs) m))).
  pose proof (RandomArray_loop_frame rand N 0 (inCPU bufs) 256 m1 g a) as Hf.
  destruct (RandomArray_loop R rand N 0 (inCPU bufs) 256 m1 g) as [m2 g2].
  cbn [fst] in Hf. rewrite iota_loop_spec, !Nat.add_0_r.
  destruct (Nat.leb_spec (inCPU bufs) a), (Nat.ltb_spec a (inCPU bufs + N));
    simpl; auto; apply Hf; lia.
Qed.


Definition ex_rand (g : nat) : Z * nat := (Z.of_nat (g * 7 mod 13), S g).



(** ** Further properties of the scan microdemo *)

(** The [switch (cThreads)] of the [ScanGPUBlockShuffle] host wrapper as an
    [if] chain. *)
Lemma ScanGPUBlockShuffle_cases (st : ScanType) (out in_ N c : nat) (m : mem) :
  ScanGPUBlockShuffle st out in_ N c m
  = if c =? 128 then
      run_blocks (ScanGPUBlockShuffle_thread st 7) out in_ N 128 (grid_blocks N) m
    else if c =? 256 then
      run_blocks (ScanGPUBlockShuffle_thread st 8) out in_ N 256 (grid_blocks N) m
    else if c =? 512 then
      run_blocks (ScanGPUBlockShuffle_thread st 9) out in_ N 512 (grid_blocks N) m
    else if c =? 1024 then
      run_blocks (ScanGPUBlockShuffle_thread st 10) out in_ N 1024
        (grid_blocks N) m
    else run_blocks (ScanGPUBlock_thread st c) out in_ N c (grid_blocks N) m.
Proof.
  do 1025 (destruct c as [|c]; [reflexivity|]). reflexivity.
Qed.

Lemma for_stride_fuel (step N : nat) (body : nat -> mem -> mem) :
  0 < step ->
  forall f1 f2 i m, N - i <= f1 * step -> N - i <= f2 * step ->
  for_stride f1 i step N body m = for_stride f2 i step N body m.
Proof.
  intros Hs f1. induction f1 as [|f1 IH]; intros f2 i m H1 H2.
  - destruct f2 as [|f2]; cbn [for_stride]; [reflexivity|].
    destruct (Nat.ltb_spec i N); [lia | reflexivity].
  - destruct f2 as [|f2]; cbn [for_stride].
    + destruct (Nat.ltb_spec i N); [lia | reflexivity].
    + destruct (Nat.ltb_spec i N); [|reflexivity].
      apply IH; nia.
Qed.

Lemma for_stride_bound (step N R : nat) (body : nat -> mem -> mem) :
  0 < step -> (forall j, j mod step = 0 -> (j < N <-> j < R)) ->
  forall fuel i m, i mod step = 0 ->
  for_stride fuel i step N body m = for_stride fuel i step R body m.
Proof.
  intros Hs HNR fuel. induction fuel as [|f IH]; intros i m Hi; cbn [for_stride];
    [reflexivity|].
  pose proof (HNR i Hi) as Hiff.
  assert (Hmod : (i + step) mod step = 0).
  { replace (i + step) with (1 * step + i) by lia.
    rewrite Nat.add_comm, Nat.Div0.mod_add. exact Hi. }
  destruct Hiff as [Hf Hb].
  destruct (Nat.ltb_spec i N) as [H1|H1], (Nat.ltb_spec i R) as [H2|H2].
  - apply IH; auto.
  - specialize (Hf H1). lia.
  - specialize (Hb H2). lia.
  - reflexivity.
Qed.

Lemma roundup_mod (N p : nat) : roundup N p mod p = 0.
Proof. unfold roundup. apply Nat.Div0.mod_mul. Qed.

Lemma roundup_bounds (N p : nat) : 0 < p -> N <= roundup N p < N + p.
Proof.
  intros Hp. unfold roundup.
  pose proof (Nat.div_mod_eq (N + p - 1) p).
  pose proof (Nat.mod_upper_bound (N + p - 1) p ltac:(lia)). lia.
Qed.

Lemma roundup_exact (N p : nat) : 0 < p -> N mod p = 0 -> roundup N p = N.
Proof.
  intros Hp HN. pose proof (roundup_bounds N p Hp) as [H1 H2].
  pose proof (roundup_mod N p) as Hr.
  pose proof (Nat.div_mod_eq N p) as EN. rewrite HN, Nat.add_0_r in EN.
  pose proof (Nat.div_mod_eq (roundup N p) p) as ER. rewrite Hr, Nat.add_0_r in ER.
  assert (roundup N p / p = N / p) by nia. nia.
Qed.

Lemma roundup_iff (N p j : nat) :
  0 < p -> j mod p = 0 -> (j < N <-> j < roundup N p).
Proof.
  intros Hp Hj. pose proof (roundup_bounds N p Hp) as [H1 H2].
  pose proof (roundup_mod N p) as Hr.
  pose proof (Nat.div_mod_eq j p) as Ej. rewrite Hj, Nat.add_0_r in Ej.
  pose proof (Nat.div_mod_eq (roundup N p) p) as ER. rewrite Hr, Nat.add_0_r in ER.
  split; intros H; [lia|].
  assert (j / p < roundup N p / p) by nia.
  assert (j / p + 1 <= roundup N p / p) by lia. nia.
Qed.

Lemma roundup_le (N p : nat) : 0 < p -> roundup N p <= N * p.
Proof.
  intros Hp. destruct N as [|N].
  - unfold roundup. simpl. rewrite Nat.div_small by lia. lia.
  - pose proof (roundup_bounds (S N) p Hp). nia.
Qed.

(** The CPU loops run on whole periods: with any [N] they do what they do
    with [N] rounded up to a multiple of the period. *)
Lemma ScanCPUPeriodic_roundup (st : ScanType) (period out in_ N : nat) (m : mem) :
  0 < period ->
  ScanCPUPeriodic st period out in_ N m
  = ScanCPUPeriodic st period out in_ (roundup N period) m.
Proof.
  intros Hp. pose proof (roundup_le N period Hp) as Hle.
  destruct st; cbn [ScanCPUPeriodic];
    unfold ScanInclusiveCPUPeriodic, ScanExclusiveCPUPeriodic;
    rewrite (for_stride_bound period N (roundup N period)) by
      (auto using roundup_iff, Nat.Div0.mod_0_l);
    apply for_stride_fuel; auto; nia.
Qed.

(** A loop over whole periods of an [N] that is a multiple of the period,
    whose body at [i] writes below [out + i + step] only, writes below
    [out + N] only. *)
Lemma for_stride_frame_hi (out step N : nat) (body : nat -> mem -> mem) :
  0 < step -> N mod step = 0 ->
  (forall i m a, i mod step = 0 -> i < N -> out + i + step <= a ->
     body i m a = m a) ->
  forall fuel i m a, i mod step = 0 -> out + N <= a ->
  for_stride fuel i step N body m a = m a.
Proof.
  intros Hs HN Hb fuel. induction fuel as [|f IH]; intros i m a Hi Ha;
    cbn [for_stride]; [reflexivity|].
  destruct (Nat.ltb_spec i N) as [HiN|]; [|reflexivity].
  destruct (period_next step i N Hs Hi HN HiN) as [Hle Hmod].
  rewrite IH by auto. apply Hb; auto. lia.
Qed.

Lemma ScanCPUPeriodic_frame_exact (st : ScanType) (period out in_ N : nat)
  (m : mem) (a : nat) :
  0 < period -> N mod period = 0 -> (a < out \/ out + N <= a) ->
  ScanCPUPeriodic st period out in_ N m a = m a.
Proof.
  intros Hp HN Ha.
  destruct st; cbn [ScanCPUPeriodic];
    unfold ScanInclusiveCPUPeriodic, ScanExclusiveCPUPeriodic;
    (destruct Ha as [Ha|Ha];
     [ apply (for_stride_frame out); [| lia];
       intros i m' a' Ha'; first [apply incl_inner_frame | apply excl_inner_frame];
       intros; lia
     | apply (for_stride_frame_hi out); auto; [| apply Nat.Div0.mod_0_l];
       intros i m' a' _ _ Ha'; first [apply incl_inner_frame | apply excl_inner_frame];
       intros; lia ]).
Qed.

(** The CPU reference scans write only inside the output buffer, extended
    to whole periods: every cell below [out] or from [out] plus [N] rounded
    up to a multiple of the period on is left as it was. *)
Theorem ScanCPUPeriodic_writes_only_out (st : ScanType) (period out in_ N : nat)
  (m : mem) (a : nat) :
  0 < period -> (a < out \/ out + roundup N period <= a) ->
  ScanCPUPeriodic st period out in_ N m a = m a.
Proof.
  intros Hp Ha. rewrite ScanCPUPeriodic_roundup by exact Hp.
  apply ScanCPUPeriodic_frame_exact; auto using roundup_mod.
Qed.

(** The CPU reference scans process whole periods: when the output, extended
    to [N] rounded up to a multiple of the period, does not overlap the
    input, each of its cells holds the periodic scan of the input, also past
    [N] in the last, partial period. *)
Theorem ScanCPUPeriodic_whole_periods (st : ScanType) (period out in_ N : nat)
  (m : mem) :
  0 < period -> disjoint out in_ (roundup N period) ->
  forall p, p < roundup N period ->
  ScanCPUPeriodic st period out in_ N m (out + p)
  = seg_scan st period (fun q => m (in_ + q)) p.
Proof.
  intros Hp Hd p Hlt. rewrite ScanCPUPeriodic_roundup by exact Hp.
  apply ScanCPUPeriodic_val; auto using roundup_mod.
Qed.

Lemma block_body_frame (thread : (nat -> Z) -> nat -> Z) (out in_ B i : nat)
  (m : mem) (a : nat) :
  (a < out + i \/ out + i + B <= a) ->
  block_body thread out in_ B i m a = m a.
Proof.
  intros Ha. unfold block_body. rewrite write_lanes_spec.
  destruct (Nat.leb_spec (out + i) a), (Nat.ltb_spec a (out + i + B));
    simpl; auto; lia.
Qed.

Lemma run_blocks_frame (thread : (nat -> Z) -> nat -> Z) (out in_ N B : nat) :
  0 < B -> forall G m a, (a < out \/ out + roundup N B <= a) ->
  run_blocks thread out in_ N B G m a = m a.
Proof.
  intros HB G. induction G as [|g IH]; intros m a Ha; cbn [run_blocks];
    [reflexivity|].
  assert (Hg : (g * B) mod B = 0) by apply Nat.Div0.mod_mul.
  rewrite (for_stride_bound B N (roundup N B)) by
    (auto using roundup_iff).
  destruct Ha as [Ha|Ha].
  - rewrite (for_stride_frame out); [apply IH; lia | | lia].
    intros i m' a' Ha'. apply block_body_frame. lia.
  - rewrite (for_stride_frame_hi out B (roundup N B)); auto using roundup_mod.
    intros i m' a' _ _ Ha'. apply block_body_frame. lia.
Qed.

Section GridExact.
Variables (thread : (nat -> Z) -> nat -> Z) (out in_ N B : nat) (m0 : mem).
Hypothesis HB : 0 < B.
Hypothesis HNB : N mod B = 0.
Hypothesis Hdisj : disjoint out in_ N.
(** The value a thread writes at position [i + t], computed from the input
    buffer as long as it is intact. *)
Variable V : nat -> Z.
Hypothesis Hth : forall m i t, i mod B = 0 -> i < N -> t < B ->
  (forall q, q < N -> m (in_ + q) = m0 (in_ + q)) ->
  thread (segment in_ i m) t = V (i + t).

Lemma exact_block_loop (fuel i : nat) (m : mem) :
  i mod B = 0 -> N - i <= fuel * B ->
  (forall q, q < N -> m (in_ + q) = m0 (in_ + q)) ->
  forall a, for_stride fuel i B N (block_body thread out in_ B) m a
  = if (out + i <=? a) && (a <? out + N) then V (a - out) else m a.
Proof.
  revert i m. induction fuel as [|fu IH]; intros i m Hi Hfuel Hm a.
  - cbn [for_stride].
    destruct (Nat.leb_spec (out + i) a), (Nat.ltb_spec a (out + N));
      simpl; auto; lia.
  - cbn [for_stride]. destruct (Nat.ltb_spec i N) as [HiN|HiN].
    + destruct (period_next B i N HB Hi HNB HiN) as [Hle Hmod].
      assert (Hbody : forall a', block_body thread out in_ B i m a'
        = if (out + i <=? a') && (a' <? out + i + B) then V (a' - out)
          else m a').
      { intros a'. unfold block_body. rewrite write_lanes_spec.
        destruct (Nat.leb_spec (out + i) a'), (Nat.ltb_spec a' (out + i + B));
          simpl; auto.
        rewrite Hth by (auto; lia). f_equal. lia. }
      rewrite IH; auto; [| nia |].
      * rewrite Hbody.
        destruct (Nat.leb_spec (out + (i + B)) a), (Nat.leb_spec (out + i) a),
          (Nat.ltb_spec a (out + N)), (Nat.ltb_spec a (out + i + B));
          simpl; auto; lia.
      * intros q Hq. rewrite Hbody. unfold disjoint in Hdisj.
        destruct (Nat.leb_spec (out + i) (in_ + q)),
          (Nat.ltb_spec (in_ + q) (out + i + B)); simpl; auto. lia.
    + destruct (Nat.leb_spec (out + i) a), (Nat.ltb_spec a (out + N));
        simpl; auto; lia.
Qed.

Lemma exact_run_blocks (G : nat) :
  0 < G -> forall a,
  run_blocks thread out in_ N B G m0 a
  = if (out <=? a) && (a <? out + N) then V (a - out) else m0 a.
Proof.
  induction G as [|g IH]; intros HG a; [lia|].
  cbn [run_blocks].
  assert (Hmod : (g * B) mod B = 0) by apply Nat.Div0.mod_mul.
  destruct g as [|g'].
  - simpl Nat.mul. rewrite exact_block_loop; auto; try nia.
    rewrite Nat.add_0_r. reflexivity.
  - set (prev := run_blocks thread out in_ N B (S g') m0).
    assert (Hprev : forall a, prev a
      = if (out <=? a) && (a <? out + N) then V (a - out) else m0 a)
      by (intros; apply IH; lia).
    rewrite exact_block_loop; [| exact Hmod | nia | ].
    + rewrite Hprev.
      destruct (Nat.leb_spec (out + S g' * B) a), (Nat.leb_spec out a),
        (Nat.ltb_spec a (out + N)); simpl; auto; lia.
    + intros q Hq. rewrite Hprev. unfold disjoint in Hdisj.
      destruct (Nat.leb_spec out (in_ + q)), (Nat.ltb_spec (in_ + q) (out + N));
        simpl; auto. lia.
Qed.

End GridExact.

Lemma zsum_shift (g : nat -> Z) (i a n : nat) :
  zsum (fun q => g (i + q)) a n = zsum g (i + a) n.
Proof.
  induction n as [|n IH]; cbn [zsum]; [reflexivity|].
  rewrite IH, Nat.add_assoc. reflexivity.
Qed.

Lemma seg_scan_segment (st : ScanType) (in_ B i t : nat) (m : mem) :
  0 < B -> i mod B = 0 -> t < B ->
  scan_ref st (segment in_ i m) t = seg_scan st B (fun q => m (in_ + q)) (i + t).
Proof.
  intros HB Hi Ht.
  destruct (period_pos B i (i + t) HB Hi ltac:(lia)) as [E1 E2].
  replace (i + t - i) with t in E2 by lia.
  destruct st; cbn [scan_ref seg_scan]; rewrite E1, E2; unfold segment;
    rewrite (zsum_shift (fun q => m (in_ + q)) i 0), Nat.add_0_r; reflexivity.
Qed.

Lemma seg_scan_ext (st : ScanType) (B : nat) (x y : nat -> Z) (p : nat) :
  0 < B -> (forall q, q <= p -> x q = y q) -> seg_scan st B x p = seg_scan st B y p.
Proof.
  intros HB H. pose proof (Nat.div_mod_eq p B).
  destruct st; cbn [seg_scan]; f_equal; apply zsum_ext; intros; apply H; lia.
Qed.

Lemma thread_exact_gen (th : (nat -> Z) -> nat -> Z) (st : ScanType)
  (in_ N B : nat) (m0 : mem) :
  0 < B -> N mod B = 0 ->
  (forall x t, t < B -> (forall t', t' <= t -> in_int (x t')) ->
     th x t = scan_ref st x t) ->
  (forall q, q < N -> in_int (m0 (in_ + q))) ->
  forall m i t, i mod B = 0 -> i < N -> t < B ->
  (forall q, q < N -> m (in_ + q) = m0 (in_ + q)) ->
  th (segment in_ i m) t = seg_scan st B (fun q => m0 (in_ + q)) (i + t).
Proof.
  intros HB HN Hok Hr m i t Hi HiN Ht Hm.
  destruct (period_next B i N HB Hi HN HiN) as [Hle _].
  rewrite Hok by (auto; intros t' Ht'; unfold segment; rewrite Hm by lia;
                  apply Hr; lia).
  rewrite <- seg_scan_segment by auto.
  apply scan_ref_agree. intros t' Ht'. unfold segment. apply Hm. lia.
Qed.









Lemma run_blocks_seg (th : (nat -> Z) -> nat -> Z) (st : ScanType)
  (out in_ N B : nat) (m : mem) :
  0 < B -> 150 <= N -> N mod B = 0 -> disjoint out in_ N ->
  (forall q, q < N -> in_int (m (in_ + q))) ->
  (forall x t, t < B -> (forall t', t' <= t -> in_int (x t')) ->
     th x t = scan_ref st x t) ->
  forall a, run_blocks th out in_ N B (grid_blocks N) m a
  = if (out <=? a) && (a <? out + N)
    then seg_scan st B (fun q => m (in_ + q)) (a - out) else m a.
Proof.
  intros HB HN HNB Hd Hr Hok a.
  apply (exact_run_blocks th out in_ N B m HB HNB Hd); auto using grid_blocks_pos.
  apply thread_exact_gen; auto.
Qed.

Lemma shuffle_thread_scan (st : ScanType) (logB : nat) :
  5 <= logB <= 10 ->
  forall x t, t < 2 ^ logB -> (forall t', t' <= t -> in_int (x t')) ->
  ScanGPUBlockShuffle_thread st logB x t = scan_ref st x t.
Proof. intros. apply ScanGPUBlockShuffle_thread_ok; auto. Qed.

(** The GPU block drivers on an exact multiple of the block size. *)
Lemma ScanGPUBlock_seg (st : ScanType) (out in_ N B : nat) (m : mem) :
  0 < B <= 1024 -> 150 <= N -> N mod B = 0 -> disjoint out in_ N ->
  (forall q, q < N -> in_int (m (in_ + q))) ->
  forall a, ScanGPUBlock st out in_ N B m a
  = if (out <=? a) && (a <? out + N)
    then seg_scan st B (fun q => m (in_ + q)) (a - out) else m a.
Proof.
  intros. unfold ScanGPUBlock. apply (run_blocks_seg _ st); auto; try lia.
  intros. apply ScanGPUBlock_thread_ok; auto; lia.
Qed.

Lemma ScanGPUBlockShuffle_seg (st : ScanType) (out in_ N B : nat) (m : mem) :
  0 < B <= 1024 -> 150 <= N -> N mod B = 0 -> disjoint out in_ N ->
  (forall q, q < N -> in_int (m (in_ + q))) ->
  forall a, ScanGPUBlockShuffle st out in_ N B m a
  = if (out <=? a) && (a <? out + N)
    then seg_scan st B (fun q => m (in_ + q)) (a - out) else m a.
Proof.
  intros HB HN HNB Hd Hr a. rewrite ScanGPUBlockShuffle_cases.
  destruct (Nat.eqb_spec B 128) as [->|H1];
    [apply (run_blocks_seg _ st); auto; try lia;
     apply (shuffle_thread_scan st 7); lia|].
  destruct (Nat.eqb_spec B 256) as [->|H2];
    [apply (run_blocks_seg _ st); auto; try lia;
     apply (shuffle_thread_scan st 8); lia|].
  destruct (Nat.eqb_spec B 512) as [->|H3];
    [apply (run_blocks_seg _ st); auto; try lia;
     apply (shuffle_thread_scan st 9); lia|].
  destruct (Nat.eqb_spec B 1024) as [->|H4];
    [apply (run_blocks_seg _ st); auto; try lia;
     apply (shuffle_thread_scan st 10); lia|].
  apply (run_blocks_seg _ st); auto; try lia.
  intros. apply ScanGPUBlock_thread_ok; auto; lia.
Qed.





(** The four GPU drivers write only inside the output buffer extended to
    whole blocks: a cell below [out], or from [out] plus [N] rounded up to a
    multiple of the block size on, is left as it was. *)
Theorem gpu_drivers_write_only_out (st : ScanType) (out in_ N c : nat) (m : mem)
  (a : nat) :
  0 < c -> (a < out \/ out + roundup N c <= a) ->
  ScanGPU st out in_ N c m a = m a
  /\ ScanGPUShuffle st out in_ N c m a = m a
  /\ ScanGPUBlock st out in_ N c m a = m a
  /\ ScanGPUBlockShuffle st out in_ N c m a = m a.
Proof.
  intros Hc Ha.
  split; [apply run_blocks_frame; auto|].
  split; [apply run_blocks_frame; auto|].
  split; [apply run_blocks_frame; auto|].
  rewrite ScanGPUBlockShuffle_cases.
  destruct (Nat.eqb_spec c 128) as [->|_]; [apply run_blocks_frame; auto|].
  destruct (Nat.eqb_spec c 256) as [->|_]; [apply run_blocks_frame; auto|].
  destruct (Nat.eqb_spec c 512) as [->|_]; [apply run_blocks_frame; auto|].
  destruct (Nat.eqb_spec c 1024) as [->|_]; [apply run_blocks_frame; auto|].
  apply run_blocks_frame; auto.
Qed.

(** Below 150 elements the grid has no block (150 elements per block, at
    most 150 blocks), so none of the four GPU drivers changes memory. *)
Theorem gpu_drivers_small_noop (st : ScanType) (out in_ N c : nat) (m : mem) :
  N < 150 ->
  ScanGPU st out in_ N c m = m
  /\ ScanGPUShuffle st out in_ N c m = m
  /\ ScanGPUBlock st out in_ N c m = m
  /\ ScanGPUBlockShuffle st out in_ N c m = m.
Proof.
  intros HN. unfold ScanGPU, ScanGPUShuffle, ScanGPUBlock.
  rewrite ScanGPUBlockShuffle_cases, grid_blocks_small by exact HN.
  cbn [run_blocks].
  repeat split; destruct (c =? 128), (c =? 256), (c =? 512), (c =? 1024);
    reflexivity.
Qed.

Lemma compare_ints_spec (cnt i a b : nat) (m : mem) :
  compare_ints cnt i a b m = true
  <-> (forall k, i <= k < i + cnt -> m (a + k) = m (b + k)).
Proof.
  revert i. induction cnt as [|c IH]; intros i; cbn [compare_ints].
  - split; [intros _ k Hk; lia | reflexivity].
  - destruct (Z.eqb_spec (m (a + i)) (m (b + i))) as [E|E].
    + rewrite IH. split.
      * intros H k Hk. destruct (Nat.eq_dec k i) as [->|Hne]; auto.
        apply H. lia.
      * intros H k Hk. apply H. lia.
    + split; [discriminate|]. intros H. exfalso. apply E, H. lia.
Qed.

(** The buffer comparison in [TestScanBlock] succeeds exactly when the two
    buffers agree on each of their first [N] elements. *)
Theorem compare_ints_true_iff (N a b : nat) (m : mem) :
  compare_ints N 0 a b m = true <-> (forall k, k < N -> m (a + k) = m (b + k)).
Proof.
  rewrite compare_ints_spec. split; intros H k Hk; apply H; lia.
Qed.

Lemma memcpy_ints_spec (cnt i dst src : nat) (m : mem) :
  (forall j k, i <= j < i + cnt -> i <= k < i + cnt -> dst + j <> src + k) ->
  forall a, memcpy_ints cnt i dst src m a
  = if (dst + i <=? a) && (a <? dst + i + cnt) then m (src + (a - dst)) else m a.
Proof.
  revert i m. induction cnt as [|c IH]; intros i m Hd a; cbn [memcpy_ints].
  - destruct (Nat.leb_spec (dst + i) a), (Nat.ltb_spec a (dst + i + 0));
      simpl; auto; lia.
  - rewrite IH by (intros; apply Hd; lia). unfold upd.
    destruct (Nat.leb_spec (dst + S i) a), (Nat.leb_spec (dst + i) a),
      (Nat.ltb_spec a (dst + S i + c)), (Nat.ltb_spec a (dst + i + S c)),
      (Nat.eqb_spec a (dst + i)); simpl; try lia;
    first
      [ reflexivity
      | destruct (Nat.eqb_spec (src + (a - dst)) (dst + i));
          [exfalso; apply (Hd i (a - dst)); lia | reflexivity]
      | subst a; f_equal; lia ].
Qed.

Lemma memcpy_ints_disjoint (dst src N : nat) (m : mem) :
  disjoint dst src N ->
  forall a, memcpy_ints N 0 dst src m a
  = if (dst <=? a) && (a <? dst + N) then m (src + (a - dst)) else m a.
Proof.
  intros Hd a. rewrite memcpy_ints_spec, !Nat.add_0_r; [reflexivity|].
  unfold disjoint in Hd. intros. lia.
Qed.

Lemma RandomArray_loop_range {R : Type} (rand : R -> Z * R) (md : Z) :
  (0 < md)%Z -> (forall g, (0 <= fst (rand g))%Z) ->
  forall cnt i out m g a,
  (out + i <= a < out + i + cnt ->
     (0 <= fst (RandomArray_loop R rand cnt i out md m g) a < md)%Z)
  /\ (~ (out + i <= a < out + i + cnt) ->
     fst (RandomArray_loop R rand cnt i out md m g) a = m a).
Proof.
  intros Hmd Hr cnt. induction cnt as [|c IH]; intros i out m g a;
    cbn [RandomArray_loop].
  - split; [lia | reflexivity].
  - specialize (Hr g). destruct (rand g) as [r g']. cbn [fst] in Hr.
    destruct (IH (S i) out (upd m (out + i) (Z.rem r md)) g' a) as [H1 H2].
    destruct (Nat.eq_dec a (out + i)) as [->|Hne].
    + split; [intros _|lia].
      rewrite H2 by lia. unfold upd. rewrite Nat.eqb_refl.
      pose proof (Z.rem_bound_pos r md Hr Hmd). lia.
    + split; intros Ha.
      * apply H1. lia.
      * rewrite H2 by lia. unfold upd.
        destruct (Nat.eqb_spec a (out + i)); [lia | reflexivity].
Qed.

(** [RandomArray] fills its buffer with values in [0, mod) when the
    generator yields non-negative values, and writes nothing outside the
    buffer. *)
Theorem RandomArray_range (R : Type) (rand : R -> Z * R) (out N : nat) (md : Z)
  (m : mem) (g : R) :
  (0 < md)%Z -> (forall g, (0 <= fst (rand g))%Z) ->
  forall a,
  (out <= a < out + N -> (0 <= fst (RandomArray R rand out N md m g) a < md)%Z)
  /\ (~ (out <= a < out + N) -> fst (RandomArray R rand out N md m g) a = m a).
Proof.
  intros Hmd Hr a. unfold RandomArray.
  destruct (RandomArray_loop_range rand md Hmd Hr N 0 out m g a) as [H1 H2].
  rewrite Nat.add_0_r in H1, H2. auto.
Qed.


Lemma range_true (x N a : nat) :
  x <= a < x + N -> (x <=? a) && (a <? x + N) = true.
Proof.
  intros H. rewrite (proj2 (Nat.leb_le _ _)), (proj2 (Nat.ltb_lt _ _)) by lia.
  reflexivity.
Qed.

Lemma range_false (x N a : nat) :
  a < x \/ x + N <= a -> (x <=? a) && (a <? x + N) = false.
Proof.
  intros [H|H].
  - rewrite (proj2 (Nat.leb_gt _ _)) by lia. reflexivity.
  - rewrite (proj2 (Nat.ltb_ge _ _)) by lia. apply andb_false_r.
Qed.

Lemma ScanCPUBlock_supported (st : ScanType) (out in_ N B : nat) (m : mem) :
  (B = 256 \/ B = 512 \/ B = 1024) ->
  ScanCPUBlock st out in_ N B m = ScanCPUPeriodic st B out in_ N m.
Proof. intros [-> | [-> | ->]]; reflexivity. Qed.

(** The harness with the CPU reference [ScanCPUBlock] and any GPU driver
    that leaves the [B]-periodic scan of its input in its output buffer and
    changes nothing else. *)
Lemma TestScanBlock_passes_gen (R : Type) (rand : R -> Z * R) (st : ScanType)
  (pfnScanGPU : nat -> nat -> nat -> nat -> mem -> mem)
  (bufs : Buffers) (N B : nat) (m : mem) (g : R) :
  (B = 256 \/ B = 512 \/ B = 1024) -> N mod B = 0 -> bufs_disjoint bufs N ->
  (forall m', (forall q, q < N -> in_int (m' (inGPU bufs + q))) ->
     forall a, pfnScanGPU (outGPU bufs) (inGPU bufs) N B m' a
     = if (outGPU bufs <=? a) && (a <? outGPU bufs + N)
       then seg_scan st B (fun q => m' (inGPU bufs + q)) (a - outGPU bufs)
       else m' a) ->
  fst (TestScanBlock R rand
         (ScanCPUBlock st) pfnScanGPU
         bufs true N B m g) = true.
Proof.
  intros HB HNB Hd HG.
  assert (HB0 : 0 < B) by (destruct HB as [-> | [-> | ->]]; lia).
  destruct bufs as [ic oc hg ig og].
  unfold bufs_disjoint in Hd; cbn [inCPU outCPU hostGPU inGPU outGPU] in *.
  destruct Hd as (D1 & D2 & D3 & D4 & D5 & D6 & D7 & D8 & D9 & D10).
  unfold TestScanBlock. cbn [negb fst inCPU outCPU hostGPU inGPU outGPU].
  set (bufs := {| inCPU := ic; outCPU := oc; hostGPU := hg; inGPU := ig;
                  outGPU := og |}).
  set (m1 := TestScanBlock_setup R rand bufs N m g).
  assert (H1 : forall i, i < N -> m1 (ic + i) = wrap32 (Z.of_nat i)).
  { intros i Hi. unfold m1. rewrite TestScanBlock_setup_spec. cbn [inCPU bufs].
    rewrite (proj2 (Nat.leb_le _ _)), (proj2 (Nat.ltb_lt _ _)) by lia.
    simpl andb. cbv iota. f_equal. f_equal. lia. }
  set (m2 := ScanCPUBlock st oc ic N B m1).
  assert (H2v : forall p, p < N ->
    m2 (oc + p) = seg_scan st B (fun q => m1 (ic + q)) p).
  { intros p Hp. unfold m2. rewrite ScanCPUBlock_supported by exact HB.
    apply ScanCPUPeriodic_val; auto. unfold disjoint in *; lia. }
  assert (H2f : forall a, (a < oc \/ oc + N <= a) -> m2 a = m1 a).
  { intros a Ha. unfold m2. rewrite ScanCPUBlock_supported by exact HB.
    apply ScanCPUPeriodic_frame_exact; auto. }
  set (m3 := memcpy_ints N 0 ig ic m2).
  assert (H3 : forall a, m3 a
    = if (ig <=? a) && (a <? ig + N) then m2 (ic + (a - ig)) else m2 a).
  { intros a. unfold m3. apply memcpy_ints_disjoint.
    unfold disjoint in *; lia. }
  assert (H3in : forall q, q < N -> m3 (ig + q) = m1 (ic + q)).
  { intros q Hq. rewrite H3.
    rewrite (proj2 (Nat.leb_le _ _)), (proj2 (Nat.ltb_lt _ _)) by lia.
    simpl andb. cbv iota. rewrite H2f by (unfold disjoint in *; lia).
    f_equal. lia. }
  set (m4 := pfnScanGPU og ig N B m3).
  assert (H4 : forall a, m4 a
    = if (og <=? a) && (a <? og + N)
      then seg_scan st B (fun q => m3 (ig + q)) (a - og) else m3 a).
  { intros a. unfold m4. apply (HG m3). intros q Hq. rewrite H3in, H1 by exact Hq.
    apply wrap32_in_int. }
  set (m5 := memcpy_ints N 0 hg og m4).
  assert (H5 : forall a, m5 a
    = if (hg <=? a) && (a <? hg + N) then m4 (og + (a - hg)) else m4 a).
  { intros a. unfold m5. apply memcpy_ints_disjoint.
    unfold disjoint in *; lia. }
  apply compare_ints_spec. intros k Hk'.
  assert (Hk : k < N) by lia.
  rewrite (H5 (hg + k)), (range_true hg N (hg + k)) by lia.
  rewrite (H5 (oc + k)), (range_false hg N (oc + k)) by (unfold disjoint in *; lia).
  rewrite (H4 (og + (hg + k - hg))), (range_true og N) by lia.
  rewrite (H4 (oc + k)), (range_false og N (oc + k)) by (unfold disjoint in *; lia).
  rewrite (H3 (oc + k)), (range_false ig N (oc + k)) by (unfold disjoint in *; lia).
  rewrite H2v by exact Hk.
  replace (og + (hg + k - hg) - og) with k by lia.
  apply seg_scan_ext; auto. intros q Hq. apply H3in. lia.
Qed.

Lemma numInts_ge : 150 <= numInts.
Proof.
  unfold numInts. apply (Nat.le_trans _ (32 * 8)); [lia|].
  apply Nat.mul_le_mono_l. apply (Nat.le_trans _ (8 * 1)); [lia|].
  apply Nat.mul_le_mono; lia.
Qed.

Lemma numInts_mod (c : nat) : 1024 = c * (1024 / c) ->
  numInts = 32 * 1024 * (1024 / c) * c.
Proof.
  intros E. unfold numInts. rewrite E at 2.
  rewrite (Nat.mul_comm c), !Nat.mul_assoc. reflexivity.
Qed.

Lemma numInts_ok (B : nat) :
  (B = 256 \/ B = 512 \/ B = 1024) -> 150 <= numInts /\ numInts mod B = 0.
Proof.
  intros HB. split; [apply numInts_ge|].
  rewrite (numInts_mod B) by (destruct HB as [-> | [-> | ->]]; reflexivity).
  apply Nat.Div0.mod_mul.
Qed.

Lemma disjoint_sym (a b N : nat) : disjoint a b N -> disjoint b a N.
Proof. unfold disjoint. lia. Qed.

Lemma block_drivers_pass (R : Type) (rand : R -> Z * R)
  (st : ScanType) (bufs : Buffers) (N B : nat) (m : mem) (g : R) :
  (B = 256 \/ B = 512 \/ B = 1024) -> 150 <= N -> N mod B = 0 ->
  bufs_disjoint bufs N ->
  fst (TestScanBlock R rand (ScanCPUBlock st) (ScanGPUBlock st)
         bufs true N B m g) = true
  /\ fst (TestScanBlock R rand (ScanCPUBlock st) (ScanGPUBlockShuffle st)
         bufs true N B m g) = true.
Proof.
  intros HB HN HNB Hd.
  assert (HB' : 0 < B <= 1024) by (destruct HB as [-> | [-> | ->]]; lia).
  assert (Hio : disjoint (outGPU bufs) (inGPU bufs) N)
    by (apply disjoint_sym; apply Hd).
  split; apply TestScanBlock_passes_gen; auto; intros m' Hr a.
  - apply ScanGPUBlock_seg; auto.
  - apply ScanGPUBlockShuffle_seg; auto.
Qed.

Lemma TestScanBlock_checked_fst (R : Type) (rand : R -> Z * R) (ok : nat -> bool)
  (cpu gpu : nat -> nat -> nat -> nat -> mem -> mem) (bufs : Buffers)
  (allocOK : bool) (N n : nat) (m : mem) (g : R) :
  fst (TestScanBlock_checked R rand ok cpu gpu bufs allocOK N n m g)
  = allocOK && forallb ok (seq 0 12)
    && fst (TestScanBlock R rand cpu gpu bufs true N n m g).
Proof.
  destruct allocOK; [|reflexivity].
  unfold TestScanBlock_checked, TestScanBlock, TestScanBlock_setup, cudart_check.
  cbn [negb seq forallb andb].
  destruct (ok 0), (ok 1), (ok 2), (ok 3), (ok 4), (ok 5), (ok 6); try reflexivity.
  destruct (RandomArray R rand (inCPU bufs) N 256 _ g) as [m1 g1].
  destruct (ok 7), (ok 8), (ok 9), (ok 10); try reflexivity;
  destruct (compare_ints _ _ _ _ _), (ok 11); reflexivity.
Qed.

(** [TestScanBlock] with its error paths, run with the CPU reference
    [ScanCPUBlock] and a race-free GPU driver ([ScanGPUBlockShuffle] with
    either scan type, [ScanGPUBlock] for the inclusive scan), for 256, 512
    or 1024 threads per block, a problem size of at least 150 that is a
    multiple of the block size and pairwise disjoint buffers: it returns
    [true] exactly when the three [malloc] calls and its twelve checked
    CUDA calls succeed, whatever the random input. *)
Theorem TestScanBlock_checked_pass (R : Type) (rand : R -> Z * R) (ok : nat -> bool)
  (allocOK : bool) (st : ScanType) (bufs : Buffers) (N B : nat) (m : mem) (g : R) :
  (B = 256 \/ B = 512 \/ B = 1024) -> 150 <= N -> N mod B = 0 ->
  bufs_disjoint bufs N ->
  fst (TestScanBlock_checked R rand ok (ScanCPUBlock st) (ScanGPUBlockShuffle st)
         bufs allocOK N B m g) = allocOK && forallb ok (seq 0 12)
  /\ fst (TestScanBlock_checked R rand ok (ScanCPUBlock Inclusive)
         (ScanGPUBlock Inclusive) bufs allocOK N B m g)
     = allocOK && forallb ok (seq 0 12).
Proof.
  intros HB HN HNB Hd. rewrite !TestScanBlock_checked_fst.
  rewrite (proj2 (block_drivers_pass R rand st bufs N B m g HB HN HNB Hd)).
  rewrite (proj1 (block_drivers_pass R rand Inclusive bufs N B m g HB HN HNB Hd)).
  rewrite !andb_true_r. split; reflexivity.
Qed.

Lemma thread_loop_spec (maxThreads : nat) (body : nat -> mem -> option mem)
  (P : nat -> Prop) :
  maxThreads <= 1024 ->
  (forall n m, (n = 256 \/ n = 512 \/ n = 1024) -> n <= maxThreads ->
     (exists m', body n m = Some m') <-> P n) ->
  forall fuel n m,
  (n = 256 /\ 3 <= fuel \/ n = 512 /\ 2 <= fuel \/ n = 1024 /\ 1 <= fuel
   \/ maxThreads < n) ->
  ((exists m', thread_loop fuel n maxThreads body m = Some m')
   <-> (forall n', (n' = 256 \/ n' = 512 \/ n' = 1024) -> n <= n' <= maxThreads ->
        P n')).
Proof.
  intros Hmax Hb fuel. induction fuel as [|f IH]; intros n m Hn; cbn [thread_loop].
  - split; [intros _ n' Hn' Hle; lia | eauto].
  - destruct (Nat.leb_spec n maxThreads) as [Hle|Hlt].
    + assert (Hn3 : n = 256 \/ n = 512 \/ n = 1024) by lia.
      specialize (Hb n m Hn3 Hle).
      destruct (body n m) as [m1|] eqn:E.
      * rewrite (IH (n * 2) m1) by lia.
        assert (Pn : P n) by (apply Hb; eauto).
        split.
        -- intros H n' Hn' Hr. destruct (Nat.eq_dec n' n) as [->|Hne]; auto.
           apply H; auto. lia.
        -- intros H n' Hn' Hr. apply H; auto. lia.
      * split; [intros [m' Hm']; discriminate|].
        intros H. exfalso. assert (Pn : P n) by (apply H; auto; lia).
        apply Hb in Pn. destruct Pn as [m' Hm']. discriminate.
    + split; [intros _ n' Hn' Hr; lia | eauto].
Qed.

Lemma SCAN_TEST_VECTOR_iff (R : Type) (rand : R -> Z * R) (seed0 : R)
  (ok : nat -> bool) (allocOK : bool)
  (cpu gpu : nat -> nat -> nat -> nat -> mem -> mem) (bufs : Buffers)
  (N n : nat) (m : mem) :
  fst (TestScanBlock R rand cpu gpu bufs true N n m seed0) = true ->
  (exists m', SCAN_TEST_VECTOR R rand seed0 ok allocOK cpu gpu bufs N n m = Some m')
  <-> allocOK && forallb ok (seq 0 12) = true.
Proof.
  intros Hp.
  assert (E := TestScanBlock_checked_fst R rand ok cpu gpu bufs allocOK N n m seed0).
  rewrite Hp, andb_true_r in E. rewrite <- E. unfold SCAN_TEST_VECTOR.
  destruct (TestScanBlock_checked R rand ok cpu gpu bufs allocOK N n m seed0)
    as [[|] m']; cbn [fst].
  - split; eauto.
  - split; [intros [m'' H]; discriminate | discriminate].
Qed.

(** The exit status of [main], for a device with at most 1024 threads per
    block and pairwise disjoint buffers for every test vector: it is 0
    exactly when [cudaSetDevice] and [cudaSetDeviceFlags] succeed and,
    for every number of threads 256, 512 or 1024 the loops reach, the
    three test vectors' [malloc] calls and checked CUDA calls succeed
    (the scans themselves never fail). *)
Theorem main_exit_status (R : Type) (rand : R -> Z * R) (seed0 : R)
  (devOK : nat -> bool) (maxThreads : nat) (alloc : nat -> nat -> Buffers)
  (allocOK : nat -> nat -> bool) (cudaOK : nat -> nat -> nat -> bool) (m : mem) :
  maxThreads <= 1024 -> (forall k n, bufs_disjoint (alloc k n) numInts) ->
  (main R rand seed0 devOK maxThreads alloc allocOK cudaOK m = 0
   <-> devOK 0 = true /\ devOK 1 = true
       /\ forall k n, k < 3 -> (n = 256 \/ n = 512 \/ n = 1024) -> n <= maxThreads ->
          allocOK k n && forallb (cudaOK k n) (seq 0 12) = true).
Proof.
  intros Hmax Hal. unfold main.
  set (P := fun k n => allocOK k n && forallb (cudaOK k n) (seq 0 12) = true).
  change (forall k n, k < 3 -> (n = 256 \/ n = 512 \/ n = 1024) -> n <= maxThreads
            -> allocOK k n && forallb (cudaOK k n) (seq 0 12) = true)
    with (forall k n, k < 3 -> (n = 256 \/ n = 512 \/ n = 1024) -> n <= maxThreads
            -> P k n).
  assert (Hfuel : 256 = 256 /\ 3 <= maxThreads \/ 256 = 512 /\ 2 <= maxThreads
                  \/ 256 = 1024 /\ 1 <= maxThreads \/ maxThreads < 256) by lia.
  assert (L1 := thread_loop_spec maxThreads
    (fun n m => SCAN_TEST_VECTOR R rand seed0 (cudaOK 0 n) (allocOK 0 n)
                  (ScanCPUBlock Exclusive) (ScanGPUBlockShuffle Exclusive)
                  (alloc 0 n) numInts n m) (P 0) Hmax).
  assert (L2 := thread_loop_spec maxThreads
    (fun n m => option_bind
       (SCAN_TEST_VECTOR R rand seed0 (cudaOK 1 n) (allocOK 1 n)
          (ScanCPUBlock Inclusive) (ScanGPUBlock Inclusive) (alloc 1 n) numInts n m)
       (fun m => SCAN_TEST_VECTOR R rand seed0 (cudaOK 2 n) (allocOK 2 n)
          (ScanCPUBlock Inclusive) (ScanGPUBlockShuffle Inclusive) (alloc 2 n)
          numInts n m))
    (fun n => P 1 n /\ P 2 n) Hmax).
  lapply L1; [clear L1; intros L1 | ].
  2:{ intros n m' Hn _. destruct (numInts_ok n Hn) as [H1 H2].
      apply SCAN_TEST_VECTOR_iff.
      exact (proj2 (block_drivers_pass R rand Exclusive (alloc 0 n)
                      numInts n m' seed0 Hn H1 H2 (Hal 0 n))). }
  lapply L2; [clear L2; intros L2 | ].
  2:{ intros n m' Hn _. destruct (numInts_ok n Hn) as [H1 H2].
      assert (E1 := SCAN_TEST_VECTOR_iff R rand seed0 (cudaOK 1 n) (allocOK 1 n)
        (ScanCPUBlock Inclusive) (ScanGPUBlock Inclusive) (alloc 1 n) numInts n m'
        (proj1 (block_drivers_pass R rand Inclusive (alloc 1 n)
                  numInts n m' seed0 Hn H1 H2 (Hal 1 n)))).
      destruct (SCAN_TEST_VECTOR R rand seed0 (cudaOK 1 n) (allocOK 1 n)
        (ScanCPUBlock Inclusive) (ScanGPUBlock Inclusive) (alloc 1 n) numInts n m')
        as [m1|] eqn:Es; cbn [option_bind].
      - assert (P1 : P 1 n) by (apply E1; eauto).
        rewrite (SCAN_TEST_VECTOR_iff R rand seed0 (cudaOK 2 n) (allocOK 2 n)
          (ScanCPUBlock Inclusive) (ScanGPUBlockShuffle Inclusive) (alloc 2 n)
          numInts n m1
          (proj2 (block_drivers_pass R rand Inclusive (alloc 2 n)
                    numInts n m1 seed0 Hn H1 H2 (Hal 2 n)))).
        unfold P. tauto.
      - split; [intros [m'' H]; discriminate|].
        intros [P1 _]. apply E1 in P1. destruct P1 as [m'' H]. discriminate. }
  destruct (devOK 0) eqn:D0; cbn [negb];
    [| split; [discriminate | intros [H _]; discriminate]].
  destruct (devOK 1) eqn:D1; cbn [negb];
    [| split; [discriminate | intros [_ [H _]]; discriminate]].
  specialize (L1 maxThreads 256 m Hfuel).
  destruct (thread_loop maxThreads 256 maxThreads _ m) as [m1|] eqn:T1.
  - specialize (L2 maxThreads 256 m1 Hfuel).
    assert (A1 : forall n', (n' = 256 \/ n' = 512 \/ n' = 1024) ->
                 256 <= n' <= maxThreads -> P 0 n') by (apply L1; eauto).
    destruct (thread_loop maxThreads 256 maxThreads _ m1) as [m2|] eqn:T2.
    + assert (A2 : forall n', (n' = 256 \/ n' = 512 \/ n' = 1024) ->
                   256 <= n' <= maxThreads -> P 1 n' /\ P 2 n') by (apply L2; eauto).
      split; [intros _ | reflexivity]. split; [reflexivity | split; [reflexivity|]].
      intros k n Hk Hn Hle.
      destruct (A2 n Hn) as [P1 P2]; [lia|].
      assert (P0 := A1 n Hn ltac:(lia)).
      destruct k as [|[|[|k]]]; auto; lia.
    + split; [discriminate|]. intros [_ [_ H]].
      destruct L2 as [_ L2]. destruct L2 as [m' E]; [|discriminate].
      intros n' Hn' Hr. split; apply H; auto; lia.
  - split; [discriminate|]. intros [_ [_ H]].
    destruct L1 as [_ L1]. destruct L1 as [m' E]; [|discriminate].
    intros n' Hn' Hr. apply H; auto; lia.
Qed.

(** ** Examples of the further properties *)

Definition ex_bufs_wide : Buffers :=
  {| inCPU := 0; outCPU := 1000; hostGPU := 2000; inGPU := 3000; outGPU := 4000 |}.

(** Buffers for every test vector of [main], [numInts] apart. *)
Definition ex_alloc (k n : nat) : Buffers :=
  {| inCPU := 0; outCPU := numInts; hostGPU := 2 * numInts;
     inGPU := 3 * numInts; outGPU := 4 * numInts |}.

Lemma ScanCPUPeriodic_writes_only_out_witness :
  0 < 4 /\ (1020 < 1000 \/ 1000 + roundup 6 4 <= 1020)
  /\ ScanCPUPeriodic Inclusive 4 1000 0 6 dev_mem 1020 = dev_mem 1020.
Proof.
  assert (H : 1000 + roundup 6 4 <= 1020) by (apply Nat.leb_le; reflexivity).
  split; [lia | split; [right; exact H |]].
  apply (ScanCPUPeriodic_writes_only_out Inclusive 4 1000 0 6 dev_mem 1020);
    [lia | right; exact H].
Defined.

Lemma ScanCPUPeriodic_whole_periods_witness :
  0 < 4 /\ disjoint 1000 0 (roundup 6 4) /\ 7 < roundup 6 4
  /\ ScanCPUPeriodic Exclusive 4 1000 0 6 dev_mem (1000 + 7)
     = seg_scan Exclusive 4 (fun q => dev_mem (0 + q)) 7.
Proof.
  assert (Hd : disjoint 1000 0 (roundup 6 4))
    by (right; apply Nat.leb_le; reflexivity).
  assert (Hp : 7 < roundup 6 4) by (apply Nat.ltb_lt; reflexivity).
  split; [lia | split; [exact Hd | split; [exact Hp |]]].
  apply (ScanCPUPeriodic_whole_periods Exclusive 4 1000 0 6 dev_mem);
    [lia | exact Hd | exact Hp].
Defined.





Lemma gpu_drivers_write_only_out_witness :
  0 < 128 /\ (5 < 1000 \/ 1000 + roundup 200 128 <= 5)
  /\ ScanGPU Inclusive 1000 0 200 128 dev_mem 5 = dev_mem 5
  /\ ScanGPUShuffle Inclusive 1000 0 200 128 dev_mem 5 = dev_mem 5
  /\ ScanGPUBlock Inclusive 1000 0 200 128 dev_mem 5 = dev_mem 5
  /\ ScanGPUBlockShuffle Inclusive 1000 0 200 128 dev_mem 5 = dev_mem 5.
Proof.
  assert (H1 : 0 < 128) by lia.
  assert (H2 : 5 < 1000 \/ 1000 + roundup 200 128 <= 5) by (left; lia).
  split; [exact H1 | split; [exact H2 |]].
  exact (gpu_drivers_write_only_out Inclusive 1000 0 200 128 dev_mem 5 H1 H2).
Defined.

Lemma gpu_drivers_small_noop_witness :
  100 < 150
  /\ ScanGPU Exclusive 1000 0 100 64 dev_mem = dev_mem
  /\ ScanGPUShuffle Exclusive 1000 0 100 64 dev_mem = dev_mem
  /\ ScanGPUBlock Exclusive 1000 0 100 64 dev_mem = dev_mem
  /\ ScanGPUBlockShuffle Exclusive 1000 0 100 64 dev_mem = dev_mem.
Proof.
  assert (H : 100 < 150) by lia.
  split; [exact H |].
  exact (gpu_drivers_small_noop Exclusive 1000 0 100 64 dev_mem H).
Defined.

Lemma RandomArray_range_witness :
  (0 < 13)%Z /\ (forall g, (0 <= fst (ex_rand g))%Z)
  /\ (0 <= 3 < 0 + 8 -> (0 <= fst (RandomArray nat ex_rand 0 8 13 dev_mem 0%nat) 3%nat < 13)%Z)
  /\ (~ (0 <= 3 < 0 + 8) -> fst (RandomArray nat ex_rand 0 8 13 dev_mem 0%nat) 3 = dev_mem 3).
Proof.
  assert (H1 : (0 < 13)%Z) by lia.
  assert (H2 : forall g, (0 <= fst (ex_rand g))%Z)
    by (intros g; unfold ex_rand; cbn [fst]; lia).
  split; [exact H1 | split; [exact H2 |]].
  exact (RandomArray_range nat ex_rand 0 8 13 dev_mem 0%nat H1 H2 3).
Defined.

Lemma TestScanBlock_checked_pass_witness :
  (256 = 256 \/ 256 = 512 \/ 256 = 1024) /\ 150 <= 512 /\ 512 mod 256 = 0
  /\ bufs_disjoint ex_bufs_wide 512
  /\ fst (TestScanBlock_checked nat ex_rand (fun k => negb (k =? 9))
            (ScanCPUBlock Exclusive) (ScanGPUBlockShuffle Exclusive)
            ex_bufs_wide true 512 256 dev_mem 0)
     = true && forallb (fun k => negb (k =? 9)) (seq 0 12)
  /\ fst (TestScanBlock_checked nat ex_rand (fun k => negb (k =? 9))
            (ScanCPUBlock Inclusive) (ScanGPUBlock Inclusive)
            ex_bufs_wide true 512 256 dev_mem 0)
     = true && forallb (fun k => negb (k =? 9)) (seq 0 12).
Proof.
  assert (H1 : 256 = 256 \/ 256 = 512 \/ 256 = 1024) by (left; reflexivity).
  assert (H2 : 150 <= 512) by lia.
  assert (H3 : 512 mod 256 = 0) by reflexivity.
  assert (H4 : bufs_disjoint ex_bufs_wide 512)
    by (unfold bufs_disjoint, disjoint; cbn [ex_bufs_wide inCPU outCPU hostGPU inGPU outGPU];
        lia).
  split; [exact H1 | split; [exact H2 | split; [exact H3 | split; [exact H4 |]]]].
  exact (TestScanBlock_checked_pass nat ex_rand (fun k => negb (k =? 9)) true
           Exclusive ex_bufs_wide 512 256 dev_mem 0 H1 H2 H3 H4).
Defined.

Lemma main_exit_status_witness :
  1024 <= 1024 /\ (forall k n, bufs_disjoint (ex_alloc k n) numInts)
  /\ (main nat ex_rand 0 (fun _ => true) 1024 ex_alloc (fun _ _ => true)
        (fun k n c => negb ((k =? 2) && (n =? 1024) && (c =? 10))) dev_mem = 0
      <-> true = true /\ true = true
          /\ forall k n, k < 3 -> (n = 256 \/ n = 512 \/ n = 1024) -> n <= 1024 ->
             true && forallb (fun c => negb ((k =? 2) && (n =? 1024) && (c =? 10)))
                       (seq 0 12) = true).
Proof.
  assert (H1 : 1024 <= 1024) by lia.
  assert (H2 : forall k n, bufs_disjoint (ex_alloc k n) numInts)
    by (intros k n; unfold bufs_disjoint, disjoint;
        cbn [ex_alloc inCPU outCPU hostGPU inGPU outGPU]; lia).
  split; [exact H1 | split; [exact H2 |]].
  exact (main_exit_status nat ex_rand 0 (fun _ => true) 1024 ex_alloc
           (fun _ _ => true) (fun k n c => negb ((k =? 2) && (n =? 1024) && (c =? 10)))
           dev_mem H1 H2).
Defined.
